(** * Scripting: script resolution and execution (src/scripting.cpp)

    A shallow embedding of the functions of namespace [Scripting]:
    [dbmsScriptPath], [versionSpecificPart], [refresh], [getScript],
    [execute] and the [CppConductor] methods, followed by the properties
    of the specification that were checked against them.

    Conventions.  A [QString] is a [string]; its UTF-16 code units are
    modelled by 8-bit characters, and the character classes of the regular
    expressions are the ASCII ones (PCRE without the Unicode-properties
    option, which is how the source builds its [QRegularExpression]s).
    File-scope globals, the objects on the C++ heap and the calls made on
    external collaborators live in an explicit [World] that every stateful
    function threads through. *)

From Stdlib Require Import ZArith Ascii String List Lia Bool.
From stdpp Require Import base option list gmap strings pretty sorting.

Local Open Scope Z_scope.

(* ===================================================================== *)
(** * QString primitives *)
(* ===================================================================== *)

Module QStr.

(** [QString::size]. *)
Fixpoint size (s : string) : nat :=
  match s with
  | EmptyString => O
  | String _ r => S (size r)
  end.

(** [QString::isEmpty]. *)
Definition isEmpty (s : string) : bool :=
  match s with EmptyString => true | _ => false end.

(** [QString::mid(pos)]: the text from offset [pos] to the end. *)
Fixpoint mid_from (s : string) (pos : nat) {struct pos} : string :=
  match pos, s with
  | O, _ => s
  | S p, String _ r => mid_from r p
  | S _, EmptyString => EmptyString
  end.

(** [QString::left(n)]. *)
Fixpoint left (s : string) (n : nat) {struct n} : string :=
  match n, s with
  | S k, String c r => String c (left r k)
  | _, _ => EmptyString
  end.

(** [QString::mid(pos, n)]: at most [n] characters from offset [pos]. *)
Definition mid (s : string) (pos n : nat) : string := left (mid_from s pos) n.

(** [QString::startsWith], case sensitive. *)
Fixpoint startsWith (s p : string) {struct p} : bool :=
  match p, s with
  | EmptyString, _ => true
  | String a p', String b s' => if Ascii.eqb a b then startsWith s' p' else false
  | String _ _, EmptyString => false
  end.

(** ASCII lower-casing of one code unit ([QChar::toLower] on Latin
    letters; the case folding of a [Qt::CaseInsensitive] comparison). *)
Definition lower (c : ascii) : ascii :=
  let n := nat_of_ascii c in
  if (Nat.leb 65 n && Nat.leb n 90)%bool then ascii_of_nat (n + 32) else c.

(** [QString::toLower]. *)
Fixpoint toLower (s : string) : string :=
  match s with
  | EmptyString => EmptyString
  | String c r => String (lower c) (toLower r)
  end.

(** [QString::contains(needle, Qt::CaseInsensitive)]. *)
Fixpoint contains_folded (s p : string) : bool :=
  if startsWith s p then true
  else match s with
       | EmptyString => false
       | String _ r => contains_folded r p
       end.

Definition contains_ci (s needle : string) : bool :=
  contains_folded (toLower s) (toLower needle).

(** [QString::replace(before, after)] for a non-empty [before]: the
    occurrences are found left to right, each search resuming just
    after the previous occurrence; the inserted text is not searched
    again.  [skip] counts the characters of an occurrence already
    replaced that are still to be stepped over. *)
Fixpoint replace_go (skip : nat) (s before after : string) : string :=
  match s with
  | EmptyString => EmptyString
  | String c r =>
      match skip with
      | S k => replace_go k r before after
      | O =>
          if startsWith s before
          then after +:+ replace_go (size before - 1) r before after
          else String c (replace_go 0 r before after)
      end
  end.

Definition replace (s before after : string) : string :=
  replace_go 0 s before after.

(** Character classes of PCRE in its default (ASCII) mode. *)
Definition is_digit (c : ascii) : bool :=
  let n := nat_of_ascii c in (Nat.leb 48 n && Nat.leb n 57)%bool.

Definition is_word (c : ascii) : bool :=
  let n := nat_of_ascii c in
  ((Nat.leb 48 n && Nat.leb n 57) || (Nat.leb 65 n && Nat.leb n 90)
   || (Nat.leb 97 n && Nat.leb n 122) || Nat.eqb n 95)%bool.

Definition is_space (c : ascii) : bool :=
  let n := nat_of_ascii c in
  ((Nat.leb 9 n && Nat.leb n 13) || Nat.eqb n 32)%bool.

(** Value of a run of decimal digits, most significant first. *)
Fixpoint digits_value (acc : Z) (s : string) : Z :=
  match s with
  | EmptyString => acc
  | String c r => digits_value (10 * acc + (Z.of_nat (nat_of_ascii c) - 48)) r
  end.

Definition INT_MAX : Z := 2147483647.

(** [QString::toInt()] on a non-empty run of decimal digits: the value
    when it fits a 32-bit [int], and 0 (conversion failure) otherwise. *)
Definition toInt (s : string) : Z :=
  let v := digits_value 0 s in
  if v <=? INT_MAX then v else 0.

(** [QString::number(int)], the text [%1] is replaced by in [arg(int)]. *)
Definition number (n : Z) : string := pretty n.

End QStr.

(* ===================================================================== *)
(** * VersionPartitioner: [versionSpecificPart] *)
(* ===================================================================== *)

(** What the source reads of a [QRegularExpressionMatch]. *)
Record RegexMatch := mkMatch {
  capturedStart : nat;
  capturedEnd : nat;
  captured1 : string
}.

(** Longest prefix of characters in a class, and what follows it. *)
Fixpoint span_class (p : ascii -> bool) (s : string) : string * string :=
  match s with
  | EmptyString => (EmptyString, EmptyString)
  | String c r =>
      if p c then let '(a, b) := span_class p r in (String c a, b)
      else (EmptyString, s)
  end.

(** The pattern inside the lookahead, [\/\*\s*V(\d+)\+\s*\*\/], tried at
    the first character of [s]; the result is capture group 1.  Each
    starred class is followed by a character outside the class, so the
    greedy choice is the only one that can succeed. *)
Definition marker_at (s : string) : option string :=
  match s with
  | String "/" (String "*" r) =>
      match snd (span_class QStr.is_space r) with
      | String "V" r1 =>
          let '(ds, r2) := span_class QStr.is_digit r1 in
          if QStr.isEmpty ds then None
          else match r2 with
               | String "+" r3 =>
                   match snd (span_class QStr.is_space r3) with
                   | String "*" (String "/" _) => Some ds
                   | _ => None
                   end
               | _ => None
               end
      | _ => None
      end
  | _ => None
  end.

(** [re.globalMatch(script)] for [re = (?=\/\*\s*V(\d+)\+\s*\*\/)].  The
    whole pattern is a lookahead, so a match consumes nothing: its end
    offset is its start offset.  After an empty match the iterator
    resumes one character further. *)
Fixpoint marker_matches (pos : nat) (s : string) : list RegexMatch :=
  let here :=
    match marker_at s with
    | Some ds => [mkMatch pos pos ds]
    | None => []
    end in
  match s with
  | EmptyString => here
  | String _ r => here ++ marker_matches (S pos) r
  end.

(** [QMap<int, QString>]: entries kept in increasing key order. *)
Definition QMap := list (Z * string).

(** [parts[key] = value]. *)
Fixpoint qmap_set (key : Z) (value : string) (m : QMap) : QMap :=
  match m with
  | [] => [(key, value)]
  | (k, v) :: r =>
      if key <? k then (key, value) :: m
      else if key =? k then (key, value) :: r
      else (k, v) :: qmap_set key value r
  end.

(** The [while (i.hasNext())] loop that fills [parts]. *)
Fixpoint collect_parts (script : string) (ms : list RegexMatch) (parts : QMap) : QMap :=
  match ms with
  | [] => parts
  | m :: rest =>
      let key := QStr.toInt (captured1 m) in
      let value :=
        match rest with
        | next_match :: _ =>
            QStr.mid script (capturedEnd m) (capturedStart next_match - capturedEnd m)
        | [] => QStr.mid_from script (capturedEnd m)
        end in
      collect_parts script rest (qmap_set key value parts)
  end.

(** The [do { --mi; ... } while (mi != parts.constBegin())] loop, walking
    the entries from the greatest key down. *)
Fixpoint search_down (descending : list (Z * string)) (version : Z) : string :=
  match descending with
  | [] => EmptyString
  | (k, v) :: r => if k <=? version then v else search_down r version
  end.

Definition versionSpecificPart (script : string) (version : Z) : string :=
  match marker_matches 0 script with
  | [] => script
  | ms => search_down (rev (collect_parts script ms [])) version
  end.

(** The segments of a script in the order of their markers: the key and
    the text each round of the loop stores in [parts]. *)
Fixpoint segments_of (script : string) (ms : list RegexMatch) : list (Z * string) :=
  match ms with
  | [] => []
  | m :: rest =>
      (QStr.toInt (captured1 m),
       match rest with
       | next_match :: _ =>
           QStr.mid script (capturedEnd m) (capturedStart next_match - capturedEnd m)
       | [] => QStr.mid_from script (capturedEnd m)
       end) :: segments_of script rest
  end.

Definition segments (script : string) : list (Z * string) :=
  segments_of script (marker_matches 0 script).

(** Is there a version marker at offset [p] of the script? *)
Definition marker_starts_at (script : string) (p : nat) : Prop :=
  is_Some (marker_at (QStr.mid_from script p)).

(** [txt] is the text from offset [p] up to the next marker after [p],
    or up to the end of the script when no marker follows. *)
Definition spans_to_next_marker (script : string) (p : nat) (txt : string) : Prop :=
  (∃ q : nat, (p < q)%nat ∧ marker_starts_at script q ∧
      (∀ j : nat, (p < j < q)%nat → ¬ marker_starts_at script j) ∧
      txt = QStr.mid script p (q - p))
  ∨ ((∀ j : nat, (p < j)%nat → ¬ marker_starts_at script j) ∧
     txt = QStr.mid_from script p).

Definition demo_script : string := "/* V100+ */A/* V200+ */B/* V300+ */C".

(* ===================================================================== *)
(** * MacroExpander: the macro pass of [execute] *)
(* ===================================================================== *)

(** The pattern [\$(\w+\.\w+)\$] tried at the first character of [s]:
    capture group 1 and the length of the whole match.  ['.'] and ['$']
    are not word characters, so each [\w+] can only be the whole run. *)
Definition macro_at (s : string) : option (string * nat) :=
  match s with
  | String "$" r =>
      let '(w1, r1) := span_class QStr.is_word r in
      if QStr.isEmpty w1 then None
      else match r1 with
           | String "." r2 =>
               let '(w2, r3) := span_class QStr.is_word r2 in
               if QStr.isEmpty w2 then None
               else match r3 with
                    | String "$" _ =>
                        Some (w1 +:+ "." +:+ w2, (QStr.size w1 + QStr.size w2 + 3)%nat)
                    | _ => None
                    end
           | _ => None
           end
  | _ => None
  end.

(** [expr.globalMatch(query)]: the captures of the successive matches,
    each search resuming at the end of the previous match.  [skip]
    counts the characters of the last match still to be stepped over. *)
Fixpoint macro_captures (skip : nat) (s : string) : list string :=
  match s with
  | EmptyString => []
  | String _ r =>
      match skip with
      | S k => macro_captures k r
      | O =>
          match macro_at s with
          | Some (name, len) => name :: macro_captures (len - 1) r
          | None => macro_captures 0 r
          end
      end
  end.

(** [if (!macros.contains(c)) macros << c;] over the captures. *)
Definition add_macro (macros : list string) (c : string) : list string :=
  if bool_decide (c ∈ macros) then macros else macros ++ [c].

Definition collect_macros (query : string) : list string :=
  fold_left add_macro (macro_captures 0 query) [].

(** One round of the [foreach] loop, given the string form of the value
    the callback returned. *)
Definition substitute (query macro value : string) : string :=
  QStr.replace query ("$" +:+ macro +:+ "$")
    (if QStr.isEmpty value then "NULL" else value).

(* ===================================================================== *)
(** * Data model *)
(* ===================================================================== *)

Inductive Context := Root | Tree | Content | Preview.

Inductive ScriptType := SQL | QS.

(** [Scripting::Script]. *)
Record Script := mkScript {
  body : string;
  type : ScriptType
}.

(** Modelled from the spec: [DataTable] (datatable.h is not part of the
    sources).  The spec lists what the engine reads of a table:
    [rowCount()], [columnCount()], [getColumn(index).name()] and
    [value(row, col)]; a table is its column names and its rows of cells,
    each cell by its string form. *)
Record DataTable := mkTable {
  columns : list string;
  rows : list (list string)
}.

Definition rowCount (t : DataTable) : nat := length (rows t).
Definition columnCount (t : DataTable) : nat := length (columns t).
Definition columnName (t : DataTable) (i : nat) : string := nth i (columns t) "".
Definition value (t : DataTable) (r c : nat) : string := nth c (nth r (rows t) []) "".

(** A [DataTable*]. *)
Definition TablePtr := positive.

(** Modelled from the spec: [DbConnection] (dbconnection.h and
    odbcconnection.h are not part of the sources).  The spec names the
    capabilities consumed: [open()], [dbmsName()], [dbmsVersion()],
    [dbmsComparableVersion()], [execute(text)] producing an ordered
    sequence of owned result sets, and whether the connection is
    ODBC-driven.  [respond] is what the database answers to a query. *)
Record DbConnection := mkConnection {
  is_odbc : bool;
  opened : bool;
  dbmsName : string;
  dbmsVersion : string;
  dbmsComparableVersion : Z;
  _resultsets : list TablePtr;
  respond : string -> list DataTable
}.

(** A [DbConnection*] argument: null, or the address of the connection
    object held in the [World]. *)
Inductive ConnectionPtr := null_connection | the_connection.

(** [QFileInfo] of a directory entry, with what opening and reading the
    file gives. *)
Record FileInfo := mkFile {
  fileName : string;
  readable : bool;
  content : string
}.

(** The file system as the engine queries it. *)
Record FileSystem := mkFileSystem {
  dir_exists : string -> bool;
  path_exists : string -> bool;
  subdirectories : string -> list string;
  files_of : string -> list FileInfo
}.

(** A call of the embedded script on one of its bound objects. *)
Inductive JsCall :=
| JsEnv (objectType : string)
| JsExec (query : string)
| JsReturnTable (resultset : TablePtr)
| JsReturnScript (script : string).

(** The [QJSValue] an evaluation ends with: [isError()], and for an error
    its [lineNumber] property and its [toString()]. *)
Inductive JsValue :=
| JsDone
| JsError (lineNumber : Z) (message : string).

(** A call made on an external collaborator. *)
Inductive Event :=
| EvOpen
| EvExecute (query : string)
| EvEvaluate (program : string)
| EvCallback (name : string)
| EvDirExists (path : string)
| EvEntryList (path : string)
| EvPathExists (path : string)
| EvEntryInfoList (path : string)
| EvFileOpen (path : string).

(** [CppConductor]: the three sequences it accumulates. *)
Record CppConductor := mkConductor {
  resultsets : list TablePtr;
  scripts : list string;
  html : list string
}.

Record World := mkWorld {
  _dbms_paths : gmap string string;
  _scripts : gmap string (gmap string Script);
  connection : DbConnection;
  heap : gmap TablePtr DataTable;
  applicationDirPath : string;
  fs : FileSystem;
  sandbox : string -> list JsCall * JsValue;
  events : list Event
}.

Definition set_dbms_paths (f : gmap string string -> gmap string string) (w : World) : World :=
  mkWorld (f (_dbms_paths w)) (_scripts w) (connection w) (heap w)
          (applicationDirPath w) (fs w) (sandbox w) (events w).

Definition set_scripts
    (f : gmap string (gmap string Script) -> gmap string (gmap string Script))
    (w : World) : World :=
  mkWorld (_dbms_paths w) (f (_scripts w)) (connection w) (heap w)
          (applicationDirPath w) (fs w) (sandbox w) (events w).

Definition set_connection (f : DbConnection -> DbConnection) (w : World) : World :=
  mkWorld (_dbms_paths w) (_scripts w) (f (connection w)) (heap w)
          (applicationDirPath w) (fs w) (sandbox w) (events w).

Definition set_heap (f : gmap TablePtr DataTable -> gmap TablePtr DataTable) (w : World) : World :=
  mkWorld (_dbms_paths w) (_scripts w) (connection w) (f (heap w))
          (applicationDirPath w) (fs w) (sandbox w) (events w).

Definition log (e : Event) (w : World) : World :=
  mkWorld (_dbms_paths w) (_scripts w) (connection w) (heap w)
          (applicationDirPath w) (fs w) (sandbox w) (events w ++ [e]).

(* ===================================================================== *)
(** * Computations: state, exceptions, undefined behaviour *)
(* ===================================================================== *)

(** How a call ends: it returns, it throws a [QString], or it has used a
    dangling pointer. *)
Inductive Outcome (A : Type) :=
| Return (a : A)
| Throw (message : string)
| Undefined.
Arguments Return {A} a.
Arguments Throw {A} message.
Arguments Undefined {A}.

Definition M (A : Type) : Type := World -> Outcome A * World.

Definition ret {A} (a : A) : M A := fun w => (Return a, w).
Definition throw {A} (message : string) : M A := fun w => (Throw message, w).
Definition bind {A B} (c : M A) (k : A -> M B) : M B :=
  fun w =>
    match c w with
    | (Return a, w') => k a w'
    | (Throw m, w') => (Throw m, w')
    | (Undefined, w') => (Undefined, w')
    end.
Definition gets {A} (f : World -> A) : M A := fun w => (Return (f w), w).
Definition modify (f : World -> World) : M unit := fun w => (Return tt, f w).

Declare Scope scripting_scope.
Delimit Scope scripting_scope with scripting.
Notation "x <- c ;; k" := (bind c (fun x => k))
  (at level 100, c at next level, right associativity) : scripting_scope.
Notation "c ;;; k" := (bind c (fun _ => k))
  (at level 100, right associativity) : scripting_scope.
Local Open Scope scripting_scope.

(* ===================================================================== *)
(** * ScriptPathResolver: [dbmsScriptPath] *)
(* ===================================================================== *)

Definition contextFolder (context : Context) : string :=
  match context with
  | Tree => "tree/"
  | Content => "content/"
  | Preview => "preview/"
  | Root => ""
  end.

(** The [for (const QString &d : subdirs)] loop: [endPath] when it ends. *)
Fixpoint find_vendor (subdirs : list string) (dbmsName : string) : string :=
  match subdirs with
  | [] => ""
  | d :: rest =>
      if QStr.contains_ci dbmsName d then d +:+ "/"
      else find_vendor rest dbmsName
  end.

(** [con->open()]: the call is recorded and the connection is open. *)
Definition open_connection (w : World) : World :=
  log EvOpen
    (set_connection (fun c => mkConnection (is_odbc c) true (dbmsName c)
       (dbmsVersion c) (dbmsComparableVersion c) (_resultsets c) (respond c)) w).

(** The key of [_dbms_paths] for the connection. *)
Definition dbmsID (c : DbConnection) : string := dbmsName c +:+ dbmsVersion c.

(** [startPath] before the vendor folder is looked for. *)
Definition scripts_root (w : World) : string :=
  let startPath := applicationDirPath w +:+ "/scripts/" in
  if is_odbc (connection w) then startPath +:+ "odbc/" else startPath.

Definition dbmsScriptPath (con : ConnectionPtr) (context : Context) : M string :=
  match con with
  | null_connection => throw "db connection unavailable"
  | the_connection =>
      modify open_connection ;;;
      c <- gets connection ;;
      paths <- gets _dbms_paths ;;
      match paths !! dbmsID c with
      | Some base => ret (base +:+ contextFolder context)
      | None =>
          startPath <- gets scripts_root ;;
          modify (log (EvDirExists startPath)) ;;;
          disk <- gets fs ;;
          if negb (dir_exists disk startPath)
          then throw ("directory " +:+ startPath +:+ " does not exist")
          else
            modify (log (EvEntryList startPath)) ;;;
            let subdirs := subdirectories disk startPath in
            if QStr.isEmpty (dbmsName c)
            then throw "unable to get dbms name"
            else
              let endPath := find_vendor subdirs (dbmsName c) in
              let startPath :=
                if (QStr.isEmpty endPath && is_odbc c)%bool
                then startPath +:+ "default/"
                else startPath +:+ endPath in
              modify (log (EvPathExists (startPath +:+ contextFolder context))) ;;;
              if negb (path_exists disk (startPath +:+ contextFolder context))
              then throw ("directory " +:+ startPath +:+ contextFolder context
                          +:+ " is not available")
              else
                modify (set_dbms_paths (insert (dbmsID c) startPath)) ;;;
                ret (startPath +:+ contextFolder context)
      end
  end.

(* ===================================================================== *)
(** * ScriptRegistry: [refresh] and [getScript] *)
(* ===================================================================== *)

(** [QFileInfo::baseName]: the name up to the first ['.']. *)
Fixpoint baseName (name : string) : string :=
  match name with
  | EmptyString => EmptyString
  | String c r => if Ascii.eqb c "." then EmptyString else String c (baseName r)
  end.

(** Does the name contain a ['.'] (the name filter ["*.*"])? *)
Fixpoint has_dot (name : string) : bool :=
  match name with
  | EmptyString => false
  | String c r => if Ascii.eqb c "." then true else has_dot r
  end.

(** [QFileInfo::suffix]: the name after the last ['.'], empty without one. *)
Fixpoint suffix (name : string) : string :=
  match name with
  | EmptyString => EmptyString
  | String c r =>
      if Ascii.eqb c "."
      then (if has_dot r then suffix r else r)
      else suffix r
  end.

(** [QDir(path).entryInfoList({"*.*"}, QDir::Files)]. *)
Definition entryInfoList (disk : FileSystem) (path : string) : list FileInfo :=
  filter (fun f => has_dot (fileName f) = true) (files_of disk path).

(** [QFileInfo::filePath] of an entry of [QDir(path)]; [path] ends with
    its separator. *)
Definition filePath (path : string) (f : FileInfo) : string := path +:+ fileName f.

(** The [QHash] the reference [bunch = _scripts[path]] designates. *)
Definition bunch_at (path : string) (w : World) : gmap string Script :=
  default ∅ (_scripts w !! path).

(** [_scripts[path]]: [operator[]] creates the entry when it is missing. *)
Definition touch_bunch (path : string) (w : World) : World :=
  set_scripts (fun m => <[path := default ∅ (m !! path)]> m) w.

Definition is_script_suffix (sfx : string) : bool :=
  (bool_decide (sfx = "sql") || bool_decide (sfx = "qs"))%bool.

(** The [for (auto &f : files)] loop of [refresh]; [files] is the whole
    listing, [todo] what is left of it. *)
Fixpoint load_files (files : list FileInfo) (path : string) (context : Context)
    (todo : list FileInfo) : M unit :=
  match todo with
  | [] => ret tt
  | f :: rest =>
      let sfx := QStr.toLower (suffix (fileName f)) in
      if negb (is_script_suffix sfx) then load_files files path context rest
      else
        modify (log (EvFileOpen (filePath path f))) ;;;
        if negb (readable f)
        then throw ("can't open " +:+
                    match files with f0 :: _ => filePath path f0 | [] => "" end)
        else
          c <- gets connection ;;
          let version :=
            match context with
            | Root => -1
            | _ => dbmsComparableVersion c
            end in
          let script :=
            mkScript (versionSpecificPart (content f) version)
                     (if bool_decide (sfx = "sql") then SQL else QS) in
          modify (fun w =>
            set_scripts (insert path (<[baseName (fileName f) := script]> (bunch_at path w))) w) ;;;
          load_files files path context rest
  end.

Definition refresh (con : ConnectionPtr) (context : Context) : M unit :=
  match con with
  | null_connection => ret tt
  | the_connection =>
      path <- dbmsScriptPath con context ;;
      modify (touch_bunch path) ;;;
      modify (set_scripts (insert path ∅)) ;;;
      modify (log (EvEntryInfoList path)) ;;;
      disk <- gets fs ;;
      let files := entryInfoList disk path in
      load_files files path context files
  end.

Definition getScript (con : ConnectionPtr) (context : Context) (objectType : string)
    : M (option Script) :=
  path <- dbmsScriptPath con context ;;
  modify (touch_bunch path) ;;;
  bunch <- gets (bunch_at path) ;;
  (if bool_decide (bunch = ∅) then refresh con context else ret tt) ;;;
  bunch <- gets (bunch_at path) ;;
  ret (bunch !! objectType).

(* ===================================================================== *)
(** * ResultConductor: [CppConductor] *)
(* ===================================================================== *)

Definition new_conductor : CppConductor := mkConductor [] [] [].

Definition appendTable (env : CppConductor) (table : TablePtr) : CppConductor :=
  mkConductor (resultsets env ++ [table]) (scripts env) (html env).

Definition appendScript (env : CppConductor) (script : string) : CppConductor :=
  mkConductor (resultsets env) (scripts env ++ [script]) (html env).

Definition appendHtml (env : CppConductor) (fragment : string) : CppConductor :=
  mkConductor (resultsets env) (scripts env) (html env ++ [fragment]).

(** [delete t]: the object leaves the heap. *)
Definition delete_table (t : TablePtr) (w : World) : World :=
  set_heap (delete t) w.

(** [qDeleteAll(resultsets)]. *)
Definition qDeleteAll (ts : list TablePtr) (w : World) : World :=
  fold_left (fun w t => delete_table t w) ts w.

(** [CppConductor::clear]: the cleared conductor and the heap without its
    tables. *)
Definition clear (env : CppConductor) (w : World) : CppConductor * World :=
  (new_conductor, qDeleteAll (resultsets env) w).

(** [CppConductor::~CppConductor]: [clear()], then the object is gone. *)
Definition destroy_conductor (env : CppConductor) (w : World) : World :=
  snd (clear env w).

(* ===================================================================== *)
(** * ExecutionDispatcher: [execute] *)
(* ===================================================================== *)

(** The [foreach (QString macro, macros)] loop. *)
Fixpoint replace_macros (macros : list string) (envCallback : string -> string)
    (query : string) (w : World) : string * World :=
  match macros with
  | [] => (query, w)
  | macro :: rest =>
      let value := envCallback macro in
      replace_macros rest envCallback (substitute query macro value)
                     (log (EvCallback macro) w)
  end.

Definition expand_macros (query : string) (envCallback : string -> string)
    (w : World) : string * World :=
  replace_macros (collect_macros query) envCallback query w.

(** A new [DataTable] object on the heap. *)
Definition new_table (t : DataTable) (w : World) : TablePtr * World :=
  let p := fresh (dom (heap w)) in
  (p, set_heap (insert p t) w).

(** Modelled from the spec: [DbConnection::execute(text)], which the spec
    describes as producing an ordered sequence of owned result sets: each
    result set of the answer becomes a new object, appended to
    [_resultsets] in the order produced. *)
Definition store_resultset (w : World) (t : DataTable) : World :=
  let '(p, w') := new_table t w in
  set_connection (fun c => mkConnection (is_odbc c) (opened c) (dbmsName c)
    (dbmsVersion c) (dbmsComparableVersion c) (_resultsets c ++ [p]) (respond c)) w'.

Definition db_execute (query : string) (w : World) : World :=
  fold_left store_resultset (respond (connection w) query) (log (EvExecute query) w).

(** Modelled from the spec: the [execute(query, params...)] capability of
    the connection handle bound in the sandbox, which the spec describes as
    returning tabular results to the script: the result sets become new
    objects that the script holds. *)
Definition js_execute (query : string) (w : World) : World :=
  fold_left (fun w t => snd (new_table t w))
    (respond (connection w) query)
    (log (EvExecute query) w).

(** [connection->_resultsets.removeAt(i)]. *)
Definition removeAt (i : nat) (w : World) : World :=
  set_connection (fun c => mkConnection (is_odbc c) (opened c) (dbmsName c)
    (dbmsVersion c) (dbmsComparableVersion c) (delete i (_resultsets c)) (respond c)) w.

(** The loop [for (int i = size - 1; i >= 0; --i)] over the result sets
    of the connection, entered with [n = i + 1]. *)
Fixpoint classify_resultsets (n : nat) (env : CppConductor) (w : World)
    : Outcome CppConductor * World :=
  match n with
  | O => (Return env, w)
  | S i =>
      match _resultsets (connection w) !! i with
      | None => (Undefined, w)
      | Some t =>
          let w1 := removeAt i w in
          match heap w1 !! t with
          | None => (Undefined, w1)
          | Some table =>
              if (Nat.eqb (rowCount table) 1 && Nat.eqb (columnCount table) 1)%bool
              then
                let cn := columnName table 0 in
                if bool_decide (cn = "script")
                then classify_resultsets i (appendScript env (value table 0 0))
                                         (delete_table t w1)
                else if bool_decide (cn = "html")
                then classify_resultsets i (appendHtml env (value table 0 0))
                                         (delete_table t w1)
                else classify_resultsets i (appendTable env t) w1
              else classify_resultsets i (appendTable env t) w1
          end
      end
  end.

(** What the evaluated script does through [__env] and [__connection]. *)
Fixpoint run_calls (calls : list JsCall) (env : CppConductor) (w : World)
    : CppConductor * World :=
  match calls with
  | [] => (env, w)
  | JsEnv objectType :: rest => run_calls rest env (log (EvCallback objectType) w)
  | JsExec query :: rest => run_calls rest env (js_execute query w)
  | JsReturnTable t :: rest => run_calls rest (appendTable env t) w
  | JsReturnScript s :: rest => run_calls rest (appendScript env s) w
  end.

(** [execute].  [env] is the [std::unique_ptr<CppConductor>] local to the
    call: when the call ends without returning it, by [return nullptr] or
    by an exception, the conductor is destroyed. *)
Definition execute (con : ConnectionPtr) (context : Context) (objectType : string)
    (envCallback : string -> string) : M (option CppConductor) :=
  fun w =>
    let env := new_conductor in
    match getScript con context objectType w with
    | (Throw m, w1) => (Throw m, destroy_conductor env w1)
    | (Undefined, w1) => (Undefined, w1)
    | (Return None, w1) => (Return None, destroy_conductor env w1)
    | (Return (Some s), w1) =>
        let '(query, w2) := expand_macros (body s) envCallback w1 in
        match type s with
        | SQL =>
            let w3 := db_execute query w2 in
            match classify_resultsets (length (_resultsets (connection w3))) env w3 with
            | (Return env', w4) => (Return (Some env'), w4)
            | (Throw m, w4) => (Throw m, w4)
            | (Undefined, w4) => (Undefined, w4)
            end
        | QS =>
            let w3 := log (EvEvaluate query) w2 in
            let '(calls, execRes) := sandbox w3 query in
            let '(env', w4) := run_calls calls env w3 in
            match execRes with
            | JsError lineNumber message =>
                (Throw ("error at line " +:+ QStr.number lineNumber +:+ ": " +:+ message),
                 destroy_conductor env' w4)
            | JsDone => (Return (Some env'), w4)
            end
        end
    end.

(* ===================================================================== *)
(** * A small installation used by the examples *)
(* ===================================================================== *)

Module Demo.

Definition root : string := "/opt/sqt/scripts/".
Definition tree : string := "/opt/sqt/scripts/postgresql/tree/".
Definition content_dir : string := "/opt/sqt/scripts/postgresql/content/".

Definition disk : FileSystem :=
  mkFileSystem
    (fun p => bool_decide (p = root))
    (fun p => bool_decide (p = tree ∨ p = content_dir))
    (fun p => if bool_decide (p = root) then ["mysql"; "postgresql"] else [])
    (fun p =>
       if bool_decide (p = tree)
       then [ mkFile "indexes.sql" true "/* V90000+ */ select 1 as html";
              mkFile "README" true "not a script";
              mkFile "tables.sql" true "select * from t where x=$a.b$ and y=$a.b$";
              mkFile "broken.qs" true "returnTable(exec('select 1')); returnScript('x'); fail" ]
       else if bool_decide (p = content_dir)
       then [ mkFile "columns.sql" true "select 1";
              mkFile "locked.sql" false "";
              mkFile "rows.sql" true "select 2" ]
       else []).

Definition one_cell (name cell : string) : DataTable := mkTable [name] [[cell]].

Definition answer (query : string) : list DataTable :=
  if bool_decide (query = "/* V90000+ */ select 1 as html") then [one_cell "html" "1"]
  else if bool_decide (query = "select 1") then [one_cell "n" "1"]
  else [one_cell "script" "select 2"; one_cell "html" "<b>"; one_cell "n" "7";
        mkTable ["a"; "b"] [["1"; "2"]]].

Definition postgres : DbConnection :=
  mkConnection false false "PostgreSQL 14.3" "14.3" 140003 [] answer.

(** The one embedded script of the installation: it runs a query, hands
    the table and a sub-script to the conductor, then fails on line 1. *)
Definition engine (program : string) : list JsCall * JsValue :=
  ([JsExec "select 1"; JsReturnTable 1%positive; JsReturnScript "x"],
   JsError 1 "ReferenceError: fail is not defined").

Definition world : World :=
  mkWorld ∅ ∅ postgres ∅ "/opt/sqt" disk engine [].

Definition resolver (macro : string) : string :=
  if bool_decide (macro = "a.b") then "" else "42".

Definition tables_script : Script :=
  mkScript "select * from t where x=$a.b$ and y=$a.b$" SQL.

Definition broken_script : Script :=
  mkScript "returnTable(exec('select 1')); returnScript('x'); fail" QS.

(** The world once the scripts of [tree] have been looked up. *)
Definition after_lookup : World :=
  snd (getScript the_connection Tree "tables" world).

End Demo.

(* ===================================================================== *)
(** * Two more installations used by the examples *)
(* ===================================================================== *)

Module Demo2.

(** A connection whose database answers no result set. *)
Definition silent : DbConnection :=
  mkConnection false false "PostgreSQL 14.3" "14.3" 140003 [] (fun _ => []).

Definition silent_world : World :=
  mkWorld ∅ ∅ silent ∅ "/opt/sqt" Demo.disk Demo.engine [].

(** A sandbox in which the embedded script runs to its end: it runs a
    query, hands the table to the conductor, then two sub-scripts. *)
Definition engine (program : string) : list JsCall * JsValue :=
  ([JsExec "select 1"; JsReturnTable 1%positive; JsReturnScript "first";
    JsEnv "schema"; JsReturnScript "second"],
   JsDone).

Definition working_world : World :=
  mkWorld ∅ ∅ Demo.postgres ∅ "/opt/sqt" Demo.disk engine [].

End Demo2.

(* ===================================================================== *)
(** * Notions used to state the properties *)
(* ===================================================================== *)

(** The keys of a [QMap] increase strictly, as [QMap] keeps them. *)
Definition keys_increasing (m : QMap) : Prop :=
  StronglySorted (fun a b : Z * string => a.1 < b.1) m.

(** [parts[key] = value] for a segment. *)
Definition store (parts : QMap) (seg : Z * string) : QMap :=
  qmap_set seg.1 seg.2 parts.

(** Every character of [s] is in the class [p]. *)
Fixpoint all_chars (p : ascii -> bool) (s : string) : bool :=
  match s with
  | EmptyString => true
  | String c r => p c && all_chars p r
  end.

(** The path a cache miss arrives at, before it is checked to exist. *)
Definition vendor_path (w : World) : string :=
  let endPath := find_vendor (subdirectories (fs w) (scripts_root w))
                             (dbmsName (connection w)) in
  if (QStr.isEmpty endPath && is_odbc (connection w))%bool
  then scripts_root w +:+ "default/"
  else scripts_root w +:+ endPath.

(** What the classification of the specification makes of a result set. *)
Inductive Classification :=
| IsScript (text : string)
| IsHtml (text : string)
| IsTable.

Definition classify (t : DataTable) : Classification :=
  if (Nat.eqb (rowCount t) 1 && Nat.eqb (columnCount t) 1)%bool
  then if bool_decide (columnName t 0 = "script") then IsScript (value t 0 0)
       else if bool_decide (columnName t 0 = "html") then IsHtml (value t 0 0)
       else IsTable
  else IsTable.

Definition script_text (h : gmap TablePtr DataTable) (p : TablePtr) : option string :=
  match classify <$> h !! p with
  | Some (IsScript s) => Some s
  | _ => None
  end.

Definition html_text (h : gmap TablePtr DataTable) (p : TablePtr) : option string :=
  match classify <$> h !! p with
  | Some (IsHtml s) => Some s
  | _ => None
  end.

Definition is_table (h : gmap TablePtr DataTable) (p : TablePtr) : bool :=
  match classify <$> h !! p with
  | Some IsTable => true
  | _ => false
  end.

(** The result sets the connection holds are distinct live objects. *)
Definition resultsets_owned (w : World) : Prop :=
  NoDup (_resultsets (connection w)) ∧
  ∀ p, p ∈ _resultsets (connection w) → is_Some (heap w !! p).

(** Two states of the connection object that differ at most in whether
    it is open. *)
Definition same_connection (c c' : DbConnection) : Prop :=
  is_odbc c' = is_odbc c ∧ dbmsName c' = dbmsName c ∧
  dbmsVersion c' = dbmsVersion c ∧
  dbmsComparableVersion c' = dbmsComparableVersion c ∧
  _resultsets c' = _resultsets c ∧ respond c' = respond c.

(** The calls that look scripts up: opening the connection and reading
    the file system.  The others run something: a query on the
    connection, a program in the sandbox, the environment callback. *)
Definition is_lookup_event (e : Event) : bool :=
  match e with
  | EvExecute _ | EvEvaluate _ | EvCallback _ => false
  | _ => true
  end.

(** From [w] to [w'] scripts were only looked up: the two caches may have
    changed and the connection may have been opened, the heap and the
    collaborators are the same, and nothing was run. *)
Definition lookup_only (w w' : World) : Prop :=
  heap w' = heap w ∧ fs w' = fs w ∧ sandbox w' = sandbox w ∧
  applicationDirPath w' = applicationDirPath w ∧
  same_connection (connection w) (connection w') ∧
  ∃ es, events w' = events w ++ es ∧ forallb is_lookup_event es = true.

(** A computation that only looks scripts up, however it ends. *)
Definition Quiet {A} (c : M A) : Prop :=
  ∀ w r w', c w = (r, w') → lookup_only w w'.

(** The tables an embedded script handed to the conductor. *)
Definition returned_tables (calls : list JsCall) : list TablePtr :=
  omap (fun c => match c with JsReturnTable t => Some t | _ => None end) calls.

(** The sub-scripts an embedded script handed to the conductor. *)
Definition returned_scripts (calls : list JsCall) : list string :=
  omap (fun c => match c with JsReturnScript s => Some s | _ => None end) calls.

(** A file [refresh] reads: its suffix, lower-cased, is [sql] or [qs]. *)
Definition is_script_file (f : FileInfo) : bool :=
  is_script_suffix (QStr.toLower (suffix (fileName f))).

(** The [Script] that [refresh] makes of a readable script file. *)
Definition script_of (context : Context) (c : DbConnection) (f : FileInfo) : Script :=
  mkScript
    (versionSpecificPart (content f)
       match context with
       | Root => -1
       | _ => dbmsComparableVersion c
       end)
    (if bool_decide (QStr.toLower (suffix (fileName f)) = "sql") then SQL else QS).

(** A bunch after the readable files of a listing have been loaded into
    it, in the order of the listing. *)
Definition load_one (context : Context) (c : DbConnection)
    (bunch : gmap string Script) (f : FileInfo) : gmap string Script :=
  if is_script_file f then <[baseName (fileName f) := script_of context c f]> bunch
  else bunch.

Definition loaded_from (context : Context) (c : DbConnection)
    (files : list FileInfo) (bunch : gmap string Script) : gmap string Script :=
  fold_left (load_one context c) files bunch.

(** The expansion as the specification words it: every occurrence of a
    macro token found in the text is replaced, where it stands, by [NULL]
    when the value of its macro is empty and by that value otherwise. *)
Fixpoint expand_every_occurrence (skip : nat) (s : string)
    (resolver : string -> string) : string :=
  match s with
  | EmptyString => EmptyString
  | String c r =>
      match skip with
      | S k => expand_every_occurrence k r resolver
      | O =>
          match macro_at s with
          | Some (name, len) =>
              (if QStr.isEmpty (resolver name) then "NULL" else resolver name)
              +:+ expand_every_occurrence (len - 1) r resolver
          | None => String c (expand_every_occurrence 0 r resolver)
          end
      end
  end.

(** A text in which the token of one macro ends on the [$] that opens a
    token of another. *)
Definition overlapping_macros : string := "$c.d$ $a.b$c.d$".

(** The token of a macro. *)
Definition macro_token (name : string) : string := "$" +:+ name +:+ "$".

(** What [execute] writes for a macro whose value has the string form
    [value]. *)
Definition null_or (value : string) : string :=
  if QStr.isEmpty value then "NULL" else value.

(** A text cut at its macro tokens is the plain text before the first
    token and, for each token, the name of its macro with the plain text
    that follows the token; [render show] writes the tokens as [show]
    tells. *)
Fixpoint render (show : string -> string) (l : list (string * string)) : string :=
  match l with
  | [] => EmptyString
  | (name, plain) :: rest => show name +:+ plain +:+ render show rest
  end.

Definition no_dollar (s : string) : bool :=
  all_chars (fun c => negb (Ascii.eqb c "$")) s.

Definition starts_outside_word (s : string) : bool :=
  match s with
  | EmptyString => false
  | String c _ => negb (QStr.is_word c)
  end.

(** A name the macro pattern captures: two non-empty runs of word
    characters around a dot. *)
Definition is_macro_name (name : string) : bool :=
  let '(w1, r) := span_class QStr.is_word name in
  match r with
  | String "." w2 =>
      (negb (QStr.isEmpty w1) && negb (QStr.isEmpty w2) && all_chars QStr.is_word w2)%bool
  | _ => false
  end.

(** The tokens of a text stand apart: the text holds no [$] outside its
    tokens, and every token but the last is followed by a character that
    is not a word character. *)
Fixpoint well_separated (l : list (string * string)) : bool :=
  match l with
  | [] => true
  | (name, plain) :: rest =>
      (is_macro_name name && no_dollar plain
       && match rest with [] => true | _ => starts_outside_word plain end
       && well_separated rest)%bool
  end.

(** A token is shown replaced once its macro has had its round. *)
Definition show_after (envCallback : string -> string) (replaced : list string)
    (name : string) : string :=
  if bool_decide (name ∈ replaced) then null_or (envCallback name) else macro_token name.

(** What follows a token that stays does not complete, with the [$] that
    closes the token, a token of the macro [m] being replaced. *)
Definition stays_closed (s m : string) : Prop :=
  QStr.startsWith s (m +:+ "$") = false.

(** The file of a listing that gives the script of an object type: the
    last script file listed whose base name is the object type. *)
Fixpoint script_file_for (objectType : string) (files : list FileInfo) : option FileInfo :=
  match files with
  | [] => None
  | f :: rest =>
      match script_file_for objectType rest with
      | Some g => Some g
      | None =>
          if (is_script_file f && bool_decide (baseName (fileName f) = objectType))%bool
          then Some f
          else None
      end
  end.

(* ===================================================================== *)
(** * Properties *)
(* ===================================================================== *)

(** ** [QString] offsets *)
Lemma mid_from_empty n : QStr.mid_from "" n = "".
Proof. by destruct n. Qed.

Lemma mid_from_add s a b : QStr.mid_from s (a + b) = QStr.mid_from (QStr.mid_from s a) b.
Proof.
  revert s. induction a as [|a IH]; intros s; simpl; [done|].
  destruct s; simpl; [by rewrite mid_from_empty|]. apply IH.
Qed.

Lemma marker_at_head s ds :
  marker_at s = Some ds → ∃ r, s = String "/" (String "*" r).
Proof.
  destruct s as [|a [|b r]]; simpl.
  - done.
  - intros H. destruct a as [[] [] [] [] [] [] [] []]; done.
  - intros H. destruct a as [[] [] [] [] [] [] [] []]; try done.
    destruct b as [[] [] [] [] [] [] [] []]; try done. by eexists.
Qed.

Lemma marker_at_star r : marker_at (String "*" r) = None.
Proof. done. Qed.

(** ** The matches of the marker pattern *)

Lemma marker_matches_cons pos c r :
  marker_matches pos (String c r) =
  match marker_at (String c r) with
  | Some ds => [mkMatch pos pos ds]
  | None => []
  end ++ marker_matches (S pos) r.
Proof. done. Qed.

Lemma marker_matches_nil s pos j :
  marker_matches pos s = [] → marker_at (QStr.mid_from s j) = None.
Proof.
  revert pos j. induction s as [|c r IH]; intros pos j H.
  - by rewrite mid_from_empty.
  - rewrite marker_matches_cons in H. apply app_eq_nil in H as [H1 H2].
    destruct j as [|j]; cbn [QStr.mid_from].
    + by destruct (marker_at (String c r)).
    + eauto.
Qed.

Lemma marker_matches_head s pos n rest :
  marker_matches pos s = n :: rest →
  ∃ j : nat, capturedStart n = (pos + j)%nat ∧ capturedEnd n = (pos + j)%nat ∧
    marker_at (QStr.mid_from s j) = Some (captured1 n) ∧
    (∀ i : nat, (i < j)%nat → marker_at (QStr.mid_from s i) = None) ∧
    rest = marker_matches (S (pos + j)) (QStr.mid_from s (S j)).
Proof.
  revert pos. induction s as [|c r IH]; intros pos H.
  - done.
  - rewrite marker_matches_cons in H.
    destruct (marker_at (String c r)) as [ds|] eqn:E.
    + injection H as <- <-. exists 0%nat. cbn [QStr.mid_from capturedStart capturedEnd captured1].
      rewrite Nat.add_0_r. repeat split; [done| lia].
    + apply IH in H as (j & H1 & H2 & H3 & H4 & H5).
      exists (S j). cbn [QStr.mid_from]. rewrite <-!Nat.add_succ_comm.
      repeat split; try done.
      intros [|i] Hi; cbn [QStr.mid_from]; [done|]. apply H4. lia.
Qed.

Lemma segments_of_spans script ms :
  ∀ pos s, marker_matches pos s = ms → QStr.mid_from script pos = s →
  ∀ k txt, (k, txt) ∈ segments_of script ms →
  ∃ (p : nat) ds, (pos ≤ p)%nat ∧ marker_at (QStr.mid_from script p) = Some ds ∧
    k = QStr.toInt ds ∧ spans_to_next_marker script p txt.
Proof.
  induction ms as [|n rest IH]; intros pos s Hms Hs k txt Hin.
  - by apply elem_of_nil in Hin.
  - destruct (marker_matches_head _ _ _ _ Hms) as (j & Hst & Hen & Hat & Hno & Hrest).
    assert (Hsuf : QStr.mid_from script (S (pos + j)) = QStr.mid_from s (S j)).
    { by rewrite <-Hs, <-mid_from_add, Nat.add_succ_r. }
    simpl in Hin. apply elem_of_cons in Hin as [Heq|Hin].
    + injection Heq as -> ->. exists (pos + j)%nat, (captured1 n).
      split; [lia|]. split; [by rewrite mid_from_add, Hs|]. split; [done|].
      rewrite Hen. destruct rest as [|next rest'].
      * right. split; [|done]. intros i Hi [x Hx].
        replace i with (S (pos + j) + (i - S (pos + j)))%nat in Hx by lia.
        rewrite mid_from_add, Hsuf in Hx.
        by rewrite (marker_matches_nil _ _ _ (eq_sym Hrest)) in Hx.
      * left. symmetry in Hrest.
        destruct (marker_matches_head _ _ _ _ Hrest) as (j2 & Hst2 & _ & Hat2 & Hno2 & _).
        exists (capturedStart next). split; [lia|]. split.
        { unfold marker_starts_at. rewrite Hst2, mid_from_add, Hsuf. by eexists. }
        split; [|done]. intros i Hi [x Hx].
        replace i with (S (pos + j) + (i - S (pos + j)))%nat in Hx by lia.
        rewrite mid_from_add, Hsuf, Hno2 in Hx; [done|lia].
    + destruct (IH _ _ (eq_sym Hrest) Hsuf _ _ Hin) as (p & ds & Hp & Hrem).
      exists p, ds. split; [lia|done].
Qed.

Lemma span_starts_with_marker script p txt :
  marker_starts_at script p → spans_to_next_marker script p txt →
  QStr.startsWith txt "/*" = true.
Proof.
  intros [ds Hds] Hspan. destruct (marker_at_head _ _ Hds) as [r Hr].
  destruct Hspan as [(q & Hpq & [x Hq] & _ & ->)|[_ ->]].
  - unfold QStr.mid. rewrite Hr.
    destruct (q - p)%nat as [|[|d]] eqn:Ed; [lia| |reflexivity].
    assert (q = S p) as -> by lia.
    replace (S p) with (p + 1)%nat in Hq by lia.
    by rewrite mid_from_add, Hr in Hq.
  - by rewrite Hr.
Qed.

(** ** The ordered map [parts] *)

Lemma qmap_set_spec key value m :
  keys_increasing m →
  keys_increasing (qmap_set key value m) ∧
  ∀ k v, (k, v) ∈ qmap_set key value m ↔
         (k = key ∧ v = value) ∨ (k ≠ key ∧ (k, v) ∈ m).
Proof.
  unfold keys_increasing. induction m as [|[k0 v0] r IH]; intros Hs.
  - split; [repeat constructor|]. intros k v. cbn [qmap_set].
    rewrite list_elem_of_singleton, elem_of_nil. split.
    + intros [= -> ->]. by left.
    + intros [[-> ->]|[_ []]]. done.
  - apply StronglySorted_inv in Hs as [Hr Hall]. cbn [qmap_set].
    destruct (Z.ltb_spec key k0) as [Hlt|Hge].
    + split.
      * constructor; [by constructor|]. constructor; [done|].
        eapply Forall_impl; [exact Hall|]. intros [k1 v1]; simpl. lia.
      * intros k v. rewrite !elem_of_cons. split.
        -- intros [[= -> ->]|[[= -> ->]|Hin]]; [by left|right; split; [lia|by left]|].
           right. rewrite Forall_forall in Hall. specialize (Hall _ Hin). simpl in Hall.
           split; [lia|by right].
        -- intros [[-> ->]|[Hne [[= -> ->]|Hin]]]; auto.
    + destruct (Z.eqb_spec key k0) as [->|Hne].
      * split.
        -- by constructor.
        -- intros k v. rewrite !elem_of_cons. split.
           ++ intros [[= -> ->]|Hin]; [by left|].
              right. rewrite Forall_forall in Hall. specialize (Hall _ Hin). simpl in Hall.
              split; [lia|by right].
           ++ intros [[-> ->]|[Hne [[= -> ->]|Hin]]]; auto. done.
      * destruct (IH Hr) as [IH1 IH2]. split.
        -- constructor; [done|]. rewrite Forall_forall. intros [k1 v1] Hin.
           apply IH2 in Hin as [[-> ->]|[_ Hin]]; simpl; [lia|].
           rewrite Forall_forall in Hall. by apply (Hall _ Hin).
        -- intros k v. rewrite !elem_of_cons, IH2. split.
           ++ intros [[= -> ->]|[[-> ->]|[Hk Hin]]].
              ** right. split; [lia|by left].
              ** by left.
              ** right. split; [done|by right].
           ++ intros [[-> ->]|[Hk [[= -> ->]|Hin]]].
              ** right. by left.
              ** by left.
              ** right. right. done.
Qed.

Lemma collect_parts_fold script ms parts :
  collect_parts script ms parts = fold_left store (segments_of script ms) parts.
Proof.
  revert parts. induction ms as [|m rest IH]; intros parts; [done|].
  cbn [collect_parts segments_of fold_left]. by rewrite IH.
Qed.

(** After storing [segs] one by one, a key holds the text of its last
    segment. *)
Lemma fold_store_spec segs parts :
  keys_increasing parts →
  keys_increasing (fold_left store segs parts) ∧
  ∀ k v, (k, v) ∈ fold_left store segs parts ↔
         (∃ l1 l2, segs = l1 ++ (k, v) :: l2 ∧ ∀ v', (k, v') ∉ l2)
         ∨ ((∀ v', (k, v') ∉ segs) ∧ (k, v) ∈ parts).
Proof.
  revert parts. induction segs as [|[k0 v0] r IH]; intros parts Hs.
  - split; [done|]. intros k v. cbn [fold_left]. split.
    + intros Hin. right. split; [|done]. intros v'. apply not_elem_of_nil.
    + intros [(l1 & l2 & H & _)|[_ H]]; [by destruct l1|done].
  - cbn [fold_left]. destruct (qmap_set_spec k0 v0 parts Hs) as [Hs' Hset].
    destruct (IH _ Hs') as [IH1 IH2]. split; [done|].
    intros k v. rewrite IH2. split.
    + intros [(l1 & l2 & -> & Hl2)|[Hno Hin]].
      * left. exists ((k0, v0) :: l1), l2. done.
      * unfold store in Hin. cbn [fst snd] in Hin. apply Hset in Hin as [[-> ->]|[Hne Hin]].
        -- left. exists [], r. done.
        -- right. split; [|done]. intros v'. rewrite elem_of_cons.
           intros [[= ? ?]|?]; [done|by eapply Hno].
    + intros [(l1 & l2 & Heq & Hl2)|[Hno Hin]].
      * destruct l1 as [|x l1]; simplify_eq/=.
        -- right. split; [done|]. unfold store. cbn [fst snd]. apply Hset. by left.
        -- left. by exists l1, l2.
      * right. split.
        -- intros v' Hv'. apply (Hno v'). by right.
        -- unfold store. cbn [fst snd]. apply Hset. right. split; [|done].
           intros ->. apply (Hno v0). by left.
Qed.

(** The downward search finds the greatest key not above the version. *)
Lemma search_down_spec m version :
  keys_increasing m →
  (∀ k v, (k, v) ∈ m → k ≤ version →
     ∃ k' v', (k', v') ∈ m ∧ k' ≤ version ∧
       (∀ k2 v2, (k2, v2) ∈ m → k2 ≤ version → k2 ≤ k') ∧
       search_down (rev m) version = v')
  ∧ ((∀ k v, (k, v) ∈ m → version < k) → search_down (rev m) version = "").
Proof.
  unfold keys_increasing. induction m as [|[k0 v0] l IH] using rev_ind; intros Hs.
  - split; [intros k v Hin; by apply elem_of_nil in Hin|done].
  - rewrite rev_unit. cbn [search_down].
    pose proof (StronglySorted_app_1_l _ _ _ Hs) as Hl.
    destruct (IH Hl) as [IH1 IH2].
    assert (Hbelow : ∀ k v, (k, v) ∈ l → k < k0).
    { intros k v Hin. apply (StronglySorted_app_1_elem_of _ _ _ (k, v) (k0, v0) Hs Hin).
      by apply list_elem_of_singleton. }
    destruct (Z.leb_spec k0 version) as [Hle|Hgt].
    + split.
      * intros _ _ _ _. exists k0, v0. split; [apply elem_of_app; right; by left|].
        split; [done|]. split; [|done]. intros k2 v2 Hin _.
        apply elem_of_app in Hin as [Hin|Hin%list_elem_of_singleton].
        -- apply Hbelow in Hin. lia.
        -- injection Hin as -> ->. lia.
      * intros Hall. specialize (Hall k0 v0). rewrite elem_of_app, list_elem_of_singleton in Hall.
        specialize (Hall (or_intror eq_refl)). lia.
    + split.
      * intros k v Hin Hk.
        apply elem_of_app in Hin as [Hin|Hin%list_elem_of_singleton]; [|injection Hin as -> ->; lia].
        destruct (IH1 _ _ Hin Hk) as (k' & v' & Hin' & Hk' & Hmax & Hres).
        exists k', v'. split; [apply elem_of_app; by left|]. split; [done|]. split; [|done].
        intros k2 v2 Hin2 Hk2.
        apply elem_of_app in Hin2 as [Hin2|Hin2%list_elem_of_singleton]; [by eapply Hmax|].
        injection Hin2 as -> ->. lia.
      * intros Hall. apply IH2. intros k v Hin. apply (Hall k v). apply elem_of_app. by left.
Qed.


Lemma span_class_all p s : all_chars p (span_class p s).1 = true.
Proof.
  induction s as [|c r IH]; [done|]. cbn [span_class].
  destruct (p c) eqn:E; [|done]. destruct (span_class p r) as [a b].
  simpl in *. by rewrite E.
Qed.

Lemma marker_at_digits s ds : marker_at s = Some ds → all_chars QStr.is_digit ds = true.
Proof.
  unfold marker_at. intros H.
  repeat (case_match; try discriminate).
  simplify_eq.
  match goal with E : span_class QStr.is_digit ?r = (?d, _) |- _ =>
    pose proof (span_class_all QStr.is_digit r) as Hd; by rewrite E in Hd end.
Qed.

Lemma digits_value_nonneg s acc :
  all_chars QStr.is_digit s = true → 0 ≤ acc → 0 ≤ QStr.digits_value acc s.
Proof.
  revert acc. induction s as [|c r IH]; intros acc Hall Hacc; [done|].
  cbn [all_chars QStr.digits_value] in *. apply andb_prop in Hall as [Hc Hr].
  apply IH; [done|]. unfold QStr.is_digit in Hc.
  apply andb_prop in Hc as [H1%Nat.leb_le _]. lia.
Qed.

Lemma toInt_nonneg ds : all_chars QStr.is_digit ds = true → 0 ≤ QStr.toInt ds.
Proof.
  intros H. unfold QStr.toInt. case_match; [|done]. by apply digits_value_nonneg.
Qed.

Lemma last_occurrence (segs : list (Z * string)) k v :
  (k, v) ∈ segs → ∃ v' l1 l2, segs = l1 ++ (k, v') :: l2 ∧ ∀ x, (k, x) ∉ l2.
Proof.
  induction segs as [|[k0 v0] l IH] using rev_ind; intros Hin.
  - by apply elem_of_nil in Hin.
  - destruct (decide (k0 = k)) as [->|Hne].
    + exists v0, l, []. split; [done|]. intros x. apply not_elem_of_nil.
    + apply elem_of_app in Hin as [Hin|Hin%list_elem_of_singleton]; [|congruence].
      destruct (IH Hin) as (v' & l1 & l2 & -> & Hl2).
      exists v', l1, (l2 ++ [(k0, v0)]). split; [by rewrite <-app_assoc|].
      intros x [Hx|Hx%list_elem_of_singleton]%elem_of_app; [by eapply Hl2|congruence].
Qed.

Lemma segments_of_nil script ms : segments_of script ms = [] → ms = [].
Proof. by destruct ms. Qed.

Lemma segments_keys script k txt :
  (k, txt) ∈ segments script → 0 ≤ k.
Proof.
  intros Hin.
  destruct (segments_of_spans script _ 0%nat script eq_refl eq_refl _ _ Hin)
    as (p & ds & _ & Hat & -> & _).
  eapply toInt_nonneg, marker_at_digits, Hat.
Qed.

Lemma versionSpecificPart_segments script version :
  segments script ≠ [] →
  versionSpecificPart script version =
  search_down (rev (fold_left store (segments script) [])) version.
Proof.
  unfold versionSpecificPart, segments. intros Hne.
  destruct (marker_matches 0 script) as [|m ms] eqn:E; [done|].
  by rewrite collect_parts_fold.
Qed.

(** C6.  Version selection: when the script has markers, the text
    returned is that of a segment whose key is at most the requested
    version and is the greatest such key (the last segment of the text
    with that key, when several markers carry it); when every key is above
    the requested version the result is the empty string, nothing is
    thrown; this is so in particular for the sentinel [-1] that [refresh]
    passes at root level, as no key is negative. *)
Theorem selects_highest_key_not_above_version script version :
  segments script ≠ [] →
  (∀ k txt, (k, txt) ∈ segments script → k ≤ version →
     ∃ k' txt' l1 l2,
       segments script = l1 ++ (k', txt') :: l2 ∧ (∀ x, (k', x) ∉ l2) ∧
       k' ≤ version ∧
       (∀ k2 txt2, (k2, txt2) ∈ segments script → k2 ≤ version → k2 ≤ k') ∧
       versionSpecificPart script version = txt')
  ∧ ((∀ k txt, (k, txt) ∈ segments script → version < k) →
     versionSpecificPart script version = "")
  ∧ versionSpecificPart script (-1) = "".
Proof.
  intros Hne.
  destruct (fold_store_spec (segments script) []) as [Hsorted Hmem]; [constructor|].
  assert (Hin_m : ∀ k v, (k, v) ∈ fold_left store (segments script) [] →
                         (k, v) ∈ segments script).
  { intros k v [(l1 & l2 & -> & _)|[_ []%elem_of_nil]]%Hmem.
    apply elem_of_app. right. by left. }
  assert (Hempty : ∀ v, (∀ k txt, (k, txt) ∈ segments script → v < k) →
                        versionSpecificPart script v = "").
  { intros v Hall. rewrite versionSpecificPart_segments by done.
    apply (search_down_spec _ v Hsorted). intros k x Hin. eauto. }
  split; [|split].
  - intros k txt Hin Hk.
    destruct (last_occurrence _ _ _ Hin) as (v' & l1 & l2 & Heq & Hl2).
    assert (Hm : (k, v') ∈ fold_left store (segments script) []).
    { apply Hmem. left. eauto. }
    destruct (proj1 (search_down_spec _ version Hsorted) _ _ Hm Hk)
      as (k' & txt' & Hin' & Hk' & Hmax & Hres).
    apply Hmem in Hin' as Hdec. destruct Hdec as [(m1 & m2 & Hseg & Hm2)|[_ []%elem_of_nil]].
    exists k', txt', m1, m2. split; [done|]. split; [done|]. split; [done|]. split.
    + intros k2 txt2 Hin2 Hk2.
      destruct (last_occurrence _ _ _ Hin2) as (v2 & n1 & n2 & Heq2 & Hn2).
      apply (Hmax k2 v2); [|done]. apply Hmem. left. eauto.
    + by rewrite versionSpecificPart_segments.
  - apply Hempty.
  - apply Hempty. intros k txt Hin. apply segments_keys in Hin. lia.
Qed.

Lemma selects_highest_key_witness :
  segments demo_script ≠ [] ∧
  ((∀ k txt, (k, txt) ∈ segments demo_script → k ≤ 250 →
     ∃ k' txt' l1 l2,
       segments demo_script = l1 ++ (k', txt') :: l2 ∧ (∀ x, (k', x) ∉ l2) ∧
       k' ≤ 250 ∧
       (∀ k2 txt2, (k2, txt2) ∈ segments demo_script → k2 ≤ 250 → k2 ≤ k') ∧
       versionSpecificPart demo_script 250 = txt')
   ∧ ((∀ k txt, (k, txt) ∈ segments demo_script → 250 < k) →
      versionSpecificPart demo_script 250 = "")
   ∧ versionSpecificPart demo_script (-1) = "").
Proof.
  assert (H : segments demo_script ≠ []) by (vm_compute; discriminate).
  split; [exact H|].
  exact (selects_highest_key_not_above_version demo_script 250 H).
Defined.

(** C3, as amended.  The marker pattern is a lookahead, so a match ends
    where it starts: the text of a segment runs from the first character
    of its marker comment to the start of the next marker, or to the end
    of the script for the last one, and so begins with the opening of its
    own marker comment.  For the markers V100+, V200+, V300+ followed by
    A, B, C, version 250 selects the marker comment of V200+ followed by
    B, and version 300 the marker comment of V300+ followed by C. *)
Theorem segment_starts_at_its_marker script :
  (∀ k txt, (k, txt) ∈ segments script →
     ∃ (p : nat) ds, marker_at (QStr.mid_from script p) = Some ds ∧ k = QStr.toInt ds ∧
       spans_to_next_marker script p txt ∧ QStr.startsWith txt "/*" = true)
  ∧ segments demo_script = [(100, "/* V100+ */A"); (200, "/* V200+ */B"); (300, "/* V300+ */C")]
  ∧ versionSpecificPart demo_script 250 = "/* V200+ */B"
  ∧ versionSpecificPart demo_script 300 = "/* V300+ */C".
Proof.
  split; [|by vm_compute].
  intros k txt Hin.
  destruct (segments_of_spans script _ 0%nat script eq_refl eq_refl _ _ Hin)
    as (p & ds & _ & Hat & -> & Hspan).
  exists p, ds. repeat split; try done.
  eapply span_starts_with_marker; [by eexists|done].
Qed.

(** C3 as stated fails: selecting 250 does not yield exactly B, nor
    selecting 300 exactly C. *)
Lemma marker_is_part_of_selected_segment :
  versionSpecificPart demo_script 250 ≠ "B" ∧ versionSpecificPart demo_script 300 ≠ "C".
Proof. by vm_compute. Qed.

(** ** Path resolution *)

Ltac run := unfold bind, gets, modify, ret, throw in *; cbn beta iota in *.

Lemma isEmpty_append_slash d : QStr.isEmpty (d +:+ "/") = false.
Proof. by destruct d. Qed.

Lemma find_vendor_first pre d post name :
  (∀ x, x ∈ pre → QStr.contains_ci name x = false) →
  QStr.contains_ci name d = true →
  find_vendor (pre ++ d :: post) name = d +:+ "/".
Proof.
  intros Hpre Hd. induction pre as [|x pre IH]; cbn [find_vendor app].
  - by rewrite Hd.
  - rewrite (Hpre x) by (by left). apply IH. intros y Hy. apply Hpre. by right.
Qed.

Lemma find_vendor_none subdirs name :
  (∀ x, x ∈ subdirs → QStr.contains_ci name x = false) →
  find_vendor subdirs name = "".
Proof.
  induction subdirs as [|x r IH]; intros H; [done|]. cbn [find_vendor].
  rewrite (H x) by (by left). apply IH. intros y Hy. apply H. by right.
Qed.

Lemma dbmsScriptPath_hit context w base :
  _dbms_paths w !! dbmsID (connection w) = Some base →
  dbmsScriptPath the_connection context w =
  (Return (base +:+ contextFolder context), open_connection w).
Proof.
  intros H. unfold dbmsScriptPath. run.
  change (_dbms_paths (open_connection w)) with (_dbms_paths w).
  change (dbmsID (connection (open_connection w))) with (dbmsID (connection w)).
  by rewrite H.
Qed.

Lemma dbmsScriptPath_miss context w :
  _dbms_paths w !! dbmsID (connection w) = None →
  dir_exists (fs w) (scripts_root w) = true →
  QStr.isEmpty (dbmsName (connection w)) = false →
  dbmsScriptPath the_connection context w =
  let w1 := log (EvPathExists (vendor_path w +:+ contextFolder context))
              (log (EvEntryList (scripts_root w))
                 (log (EvDirExists (scripts_root w)) (open_connection w))) in
  if path_exists (fs w) (vendor_path w +:+ contextFolder context)
  then (Return (vendor_path w +:+ contextFolder context),
        set_dbms_paths (insert (dbmsID (connection w)) (vendor_path w)) w1)
  else (Throw ("directory " +:+ vendor_path w +:+ contextFolder context
               +:+ " is not available"), w1).
Proof.
  intros Hmiss Hdir Hname. unfold dbmsScriptPath. run.
  change (_dbms_paths (open_connection w)) with (_dbms_paths w).
  change (dbmsID (connection (open_connection w))) with (dbmsID (connection w)).
  rewrite Hmiss. cbn beta iota.
  change (scripts_root (open_connection w)) with (scripts_root w).
  cbn [fs log]. change (fs (open_connection w)) with (fs w).
  rewrite Hdir. cbn [negb].
  change (dbmsName (connection (open_connection w))) with (dbmsName (connection w)).
  rewrite Hname.
  change (is_odbc (connection (open_connection w))) with (is_odbc (connection w)).
  fold (vendor_path w).
  by destruct (path_exists (fs w) (vendor_path w +:+ contextFolder context)).
Qed.

Lemma dbmsScriptPath_return context w path w1 :
  dbmsScriptPath the_connection context w = (Return path, w1) →
  (∃ base, _dbms_paths w !! dbmsID (connection w) = Some base ∧
           path = base +:+ contextFolder context ∧ w1 = open_connection w)
  ∨ (_dbms_paths w !! dbmsID (connection w) = None ∧
     path = vendor_path w +:+ contextFolder context ∧
     w1 = set_dbms_paths (insert (dbmsID (connection w)) (vendor_path w))
            (log (EvPathExists path)
               (log (EvEntryList (scripts_root w))
                  (log (EvDirExists (scripts_root w)) (open_connection w))))).
Proof.
  destruct (_dbms_paths w !! dbmsID (connection w)) as [base|] eqn:Hc.
  - rewrite (dbmsScriptPath_hit _ _ _ Hc). intros [= <- <-]. left. eauto.
  - destruct (dir_exists (fs w) (scripts_root w)) eqn:Hdir;
      [destruct (QStr.isEmpty (dbmsName (connection w))) eqn:Hname|].
    + unfold dbmsScriptPath. run.
      change (_dbms_paths (open_connection w)) with (_dbms_paths w).
      change (dbmsID (connection (open_connection w))) with (dbmsID (connection w)).
      rewrite Hc. cbn beta iota.
      change (scripts_root (open_connection w)) with (scripts_root w).
      cbn [fs log]. change (fs (open_connection w)) with (fs w).
      rewrite Hdir. cbn [negb].
      change (dbmsName (connection (open_connection w))) with (dbmsName (connection w)).
      by rewrite Hname.
    + rewrite (dbmsScriptPath_miss _ _ Hc Hdir Hname). cbn zeta.
      destruct (path_exists _ _); [|done]. intros [= <- <-]. right. done.
    + unfold dbmsScriptPath. run.
      change (_dbms_paths (open_connection w)) with (_dbms_paths w).
      change (dbmsID (connection (open_connection w))) with (dbmsID (connection w)).
      rewrite Hc. cbn beta iota.
      change (scripts_root (open_connection w)) with (scripts_root w).
      cbn [fs log]. change (fs (open_connection w)) with (fs w).
      by rewrite Hdir.
Qed.

(** C7.  Path resolution is memoized: once [dbmsScriptPath] has returned
    a path for the connection and a context, calling it again for the same
    connection and context returns the same path string; that second call
    finds the vendor directory in [_dbms_paths] under the identity of the
    connection, appends the context folder, and leaves as only trace the
    [open()] of the connection: no file-system call is made and the cache
    is unchanged. *)
Theorem second_resolve_is_served_from_cache context w path w1 :
  dbmsScriptPath the_connection context w = (Return path, w1) →
  ∃ base,
    _dbms_paths w1 !! dbmsID (connection w1) = Some base ∧
    path = base +:+ contextFolder context ∧
    dbmsScriptPath the_connection context w1 = (Return path, open_connection w1) ∧
    events (open_connection w1) = events w1 ++ [EvOpen] ∧
    _dbms_paths (open_connection w1) = _dbms_paths w1.
Proof.
  intros H. apply dbmsScriptPath_return in H as [(base & Hc & -> & ->)|(Hc & Hp & ->)].
  - exists base. split; [done|]. split; [done|]. split; [|done].
    by apply dbmsScriptPath_hit.
  - exists (vendor_path w).
    assert (Hc' : ∀ e, _dbms_paths (set_dbms_paths (insert (dbmsID (connection w)) (vendor_path w)) e)
              !! dbmsID (connection w) = Some (vendor_path w)).
    { intros e. cbn [set_dbms_paths _dbms_paths]. apply lookup_insert_eq. }
    split; [apply Hc'|]. split; [done|]. split; [|done].
    rewrite Hp. by apply dbmsScriptPath_hit, Hc'.
Qed.

Lemma second_resolve_witness :
  dbmsScriptPath the_connection Tree Demo.world =
    (Return Demo.tree, snd (dbmsScriptPath the_connection Tree Demo.world)) ∧
  ∃ base,
    _dbms_paths (snd (dbmsScriptPath the_connection Tree Demo.world))
      !! dbmsID (connection (snd (dbmsScriptPath the_connection Tree Demo.world))) = Some base ∧
    Demo.tree = base +:+ contextFolder Tree ∧
    dbmsScriptPath the_connection Tree (snd (dbmsScriptPath the_connection Tree Demo.world)) =
      (Return Demo.tree, open_connection (snd (dbmsScriptPath the_connection Tree Demo.world))) ∧
    events (open_connection (snd (dbmsScriptPath the_connection Tree Demo.world))) =
      events (snd (dbmsScriptPath the_connection Tree Demo.world)) ++ [EvOpen] ∧
    _dbms_paths (open_connection (snd (dbmsScriptPath the_connection Tree Demo.world))) =
      _dbms_paths (snd (dbmsScriptPath the_connection Tree Demo.world)).
Proof.
  assert (H : dbmsScriptPath the_connection Tree Demo.world =
    (Return Demo.tree, snd (dbmsScriptPath the_connection Tree Demo.world)))
    by reflexivity.
  split; [exact H|].
  exact (second_resolve_is_served_from_cache Tree Demo.world Demo.tree _ H).
Defined.

(** C8.  Vendor directory matching, on a cache miss with the scripts
    directory present and a non-empty DBMS name: the path tried is the
    scripts directory, the vendor segment and the context folder, where
    the vendor segment is the first sub-directory, in listing order, whose
    name the DBMS name contains as a case-insensitive substring; when no
    sub-directory matches it is [default/] for an ODBC connection and
    empty otherwise.  The folder [postgresql] matches the DBMS name
    [PostgreSQL 14.3]. *)
Theorem vendor_directory_matching w context :
  _dbms_paths w !! dbmsID (connection w) = None →
  dir_exists (fs w) (scripts_root w) = true →
  QStr.isEmpty (dbmsName (connection w)) = false →
  ∃ vendor : string,
    (dbmsScriptPath the_connection context w).1 =
      (if path_exists (fs w) ((scripts_root w +:+ vendor) +:+ contextFolder context)
       then Return ((scripts_root w +:+ vendor) +:+ contextFolder context)
       else Throw ("directory " +:+ (scripts_root w +:+ vendor) +:+ contextFolder context
                   +:+ " is not available"))
    ∧ (∀ pre d post,
         subdirectories (fs w) (scripts_root w) = pre ++ d :: post →
         (∀ x, x ∈ pre → QStr.contains_ci (dbmsName (connection w)) x = false) →
         QStr.contains_ci (dbmsName (connection w)) d = true →
         vendor = d +:+ "/")
    ∧ ((∀ x, x ∈ subdirectories (fs w) (scripts_root w) →
             QStr.contains_ci (dbmsName (connection w)) x = false) →
       vendor = if is_odbc (connection w) then "default/" else "")
    ∧ QStr.contains_ci "PostgreSQL 14.3" "postgresql" = true.
Proof.
  intros Hmiss Hdir Hname.
  set (endPath := find_vendor (subdirectories (fs w) (scripts_root w))
                              (dbmsName (connection w))).
  exists (if (QStr.isEmpty endPath && is_odbc (connection w))%bool
          then "default/" else endPath).
  assert (Hvp : vendor_path w = scripts_root w +:+
            (if (QStr.isEmpty endPath && is_odbc (connection w))%bool
             then "default/" else endPath)).
  { unfold vendor_path. fold endPath.
    by destruct (QStr.isEmpty endPath && is_odbc (connection w))%bool. }
  split; [|split; [|split]].
  - rewrite (dbmsScriptPath_miss _ _ Hmiss Hdir Hname). cbn zeta. rewrite Hvp.
    by destruct (path_exists _ _).
  - intros pre d post Hsub Hpre Hd. unfold endPath.
    rewrite Hsub, (find_vendor_first _ _ _ _ Hpre Hd), isEmpty_append_slash. done.
  - intros Hnone. unfold endPath. rewrite (find_vendor_none _ _ Hnone).
    by destruct (is_odbc (connection w)).
  - by vm_compute.
Qed.

Lemma vendor_directory_witness :
  _dbms_paths Demo.world !! dbmsID (connection Demo.world) = None ∧
  dir_exists (fs Demo.world) (scripts_root Demo.world) = true ∧
  QStr.isEmpty (dbmsName (connection Demo.world)) = false ∧
  (dbmsScriptPath the_connection Tree Demo.world).1
    = Return "/opt/sqt/scripts/postgresql/tree/" ∧
  ∃ vendor : string,
    (dbmsScriptPath the_connection Tree Demo.world).1 =
      (if path_exists (fs Demo.world)
            ((scripts_root Demo.world +:+ vendor) +:+ contextFolder Tree)
       then Return ((scripts_root Demo.world +:+ vendor) +:+ contextFolder Tree)
       else Throw ("directory " +:+ (scripts_root Demo.world +:+ vendor)
                   +:+ contextFolder Tree +:+ " is not available"))
    ∧ (∀ pre d post,
         subdirectories (fs Demo.world) (scripts_root Demo.world) = pre ++ d :: post →
         (∀ x, x ∈ pre → QStr.contains_ci (dbmsName (connection Demo.world)) x = false) →
         QStr.contains_ci (dbmsName (connection Demo.world)) d = true →
         vendor = d +:+ "/")
    ∧ ((∀ x, x ∈ subdirectories (fs Demo.world) (scripts_root Demo.world) →
             QStr.contains_ci (dbmsName (connection Demo.world)) x = false) →
       vendor = if is_odbc (connection Demo.world) then "default/" else "")
    ∧ QStr.contains_ci "PostgreSQL 14.3" "postgresql" = true.
Proof.
  assert (H1 : _dbms_paths Demo.world !! dbmsID (connection Demo.world) = None)
    by reflexivity.
  assert (H2 : dir_exists (fs Demo.world) (scripts_root Demo.world) = true)
    by reflexivity.
  assert (H3 : QStr.isEmpty (dbmsName (connection Demo.world)) = false)
    by reflexivity.
  split; [exact H1|]. split; [exact H2|]. split; [exact H3|].
  split; [reflexivity|].
  exact (vendor_directory_matching Demo.world Tree H1 H2 H3).
Defined.

(** ** Computations that only look scripts up *)

Lemma same_connection_refl c : same_connection c c.
Proof. by repeat split. Qed.

Lemma lookup_only_refl w : lookup_only w w.
Proof.
  repeat split; try done. exists []. by rewrite app_nil_r.
Qed.

Lemma lookup_only_trans w1 w2 w3 :
  lookup_only w1 w2 → lookup_only w2 w3 → lookup_only w1 w3.
Proof.
  intros (H1 & H2 & H3 & H4 & (C1 & C2 & C3 & C4 & C5 & C6) & es & He & Hq)
         (G1 & G2 & G3 & G4 & (D1 & D2 & D3 & D4 & D5 & D6) & es' & He' & Hq').
  repeat split; try congruence.
  exists (es ++ es'). rewrite He', He, <-app_assoc. split; [done|].
  by rewrite forallb_app, Hq, Hq'.
Qed.

Lemma lookup_only_log e w : is_lookup_event e = true → lookup_only w (log e w).
Proof.
  intros He. repeat split; try done. exists [e]. split; [done|]. cbn. by rewrite He.
Qed.

Lemma lookup_only_open w : lookup_only w (open_connection w).
Proof. repeat split; try done. by exists [EvOpen]. Qed.

Lemma lookup_only_set_dbms_paths f w : lookup_only w (set_dbms_paths f w).
Proof. repeat split; try done. exists []. by rewrite app_nil_r. Qed.

Lemma lookup_only_set_scripts f w : lookup_only w (set_scripts f w).
Proof. repeat split; try done. exists []. by rewrite app_nil_r. Qed.

Lemma Quiet_ret {A} (a : A) : Quiet (ret a).
Proof. intros w r w' [= <- <-]. apply lookup_only_refl. Qed.

Lemma Quiet_throw {A} m : Quiet (@throw A m).
Proof. intros w r w' [= <- <-]. apply lookup_only_refl. Qed.

Lemma Quiet_gets {A} (f : World → A) : Quiet (gets f).
Proof. intros w r w' [= <- <-]. apply lookup_only_refl. Qed.

Lemma Quiet_modify f : (∀ w, lookup_only w (f w)) → Quiet (modify f).
Proof. intros Hf w r w' [= <- <-]. apply Hf. Qed.

Lemma Quiet_bind {A B} (c : M A) (k : A → M B) :
  Quiet c → (∀ a, Quiet (k a)) → Quiet (bind c k).
Proof.
  intros Hc Hk w r w' H. unfold bind in H.
  destruct (c w) as [[a|m|] w1] eqn:E.
  - eapply lookup_only_trans; [by eapply Hc|by eapply Hk].
  - injection H as <- <-. by eapply Hc.
  - injection H as <- <-. by eapply Hc.
Qed.

Ltac quiet :=
  repeat first
    [ apply Quiet_bind; [|intros ?]
    | apply Quiet_ret | apply Quiet_throw | apply Quiet_gets
    | apply Quiet_modify; intros ?;
      first [ apply lookup_only_open | apply lookup_only_set_dbms_paths
            | apply lookup_only_set_scripts | by apply lookup_only_log ]
    | case_match ].

Lemma Quiet_dbmsScriptPath con context : Quiet (dbmsScriptPath con context).
Proof. unfold dbmsScriptPath. quiet. Qed.

Lemma Quiet_load_files files path context todo :
  Quiet (load_files files path context todo).
Proof.
  induction todo as [|f rest IH]; cbn [load_files]; [apply Quiet_ret|].
  quiet; done.
Qed.

Lemma Quiet_refresh con context : Quiet (refresh con context).
Proof.
  unfold refresh. quiet; try apply Quiet_dbmsScriptPath; try apply Quiet_load_files.
  all: try (unfold touch_bunch; apply lookup_only_set_scripts).
Qed.

Lemma Quiet_getScript con context objectType : Quiet (getScript con context objectType).
Proof.
  unfold getScript. quiet; try apply Quiet_dbmsScriptPath; try apply Quiet_refresh.
  all: try (unfold touch_bunch; apply lookup_only_set_scripts).
Qed.

(** ** The demo installation, evaluated *)

Lemma pair_of_fst {A B} (p : A * B) (a : A) : p.1 = a → p = (a, p.2).
Proof. intros <-. by destruct p. Qed.

(** The world a lookup leaves does not depend on the name looked up. *)
Lemma getScript_world con context a b w :
  (getScript con context a w).2 = (getScript con context b w).2.
Proof.
  unfold getScript. run.
  destruct (dbmsScriptPath con context w) as [[path| |] w1]; [|done|done].
  destruct (bool_decide _); [|done].
  by destruct (refresh con context (touch_bunch path w1)) as [[[]| |] w2].
Qed.

Lemma after_lookup_eq objectType :
  Demo.after_lookup = (getScript the_connection Tree objectType Demo.world).2.
Proof. rewrite (getScript_world _ _ objectType "tables"). reflexivity. Qed.

(** ** The classification loop *)

Lemma delete_last {A} (l : list A) (p : A) : delete (length l) (l ++ [p]) = l.
Proof. induction l as [|x l IH]; [done|]. cbn. by f_equal. Qed.

(** One round of the loop on the last result set. *)
Lemma classify_resultsets_step l p t env w :
  _resultsets (connection w) = l ++ [p] →
  heap w !! p = Some t →
  classify_resultsets (S (length l)) env w =
  match classify t with
  | IsScript s => classify_resultsets (length l) (appendScript env s)
                    (delete_table p (removeAt (length l) w))
  | IsHtml s => classify_resultsets (length l) (appendHtml env s)
                  (delete_table p (removeAt (length l) w))
  | IsTable => classify_resultsets (length l) (appendTable env p)
                 (removeAt (length l) w)
  end.
Proof.
  intros Hrs Hp. cbn [classify_resultsets].
  rewrite Hrs, list_lookup_middle by done.
  change (heap (removeAt (length l) w)) with (heap w). rewrite Hp.
  unfold classify.
  destruct (Nat.eqb (rowCount t) 1 && Nat.eqb (columnCount t) 1)%bool; [|done].
  destruct (bool_decide (columnName t 0 = "script")); [done|].
  by destruct (bool_decide (columnName t 0 = "html")).
Qed.


Lemma kinds_agree (h1 h2 : gmap TablePtr DataTable) (l : list TablePtr) :
  (∀ q, q ∈ l → h1 !! q = h2 !! q) →
  List.filter (is_table h1) l = List.filter (is_table h2) l ∧
  omap (script_text h1) l = omap (script_text h2) l ∧
  omap (html_text h1) l = omap (html_text h2) l.
Proof.
  induction l as [|x l IH]; intros H; [done|].
  destruct IH as (IH1 & IH2 & IH3); [intros q Hq; apply H; by right|].
  assert (Hx : h1 !! x = h2 !! x) by (apply H; by left).
  assert (Ht : is_table h1 x = is_table h2 x) by (unfold is_table; by rewrite Hx).
  assert (Hs : script_text h1 x = script_text h2 x) by (unfold script_text; by rewrite Hx).
  assert (Hh : html_text h1 x = html_text h2 x) by (unfold html_text; by rewrite Hx).
  cbn [List.filter omap list_omap].
  change (list_omap _ _ ?f l) with (omap f l).
  by rewrite Ht, Hs, Hh, IH1, IH2, IH3.
Qed.

Lemma heap_after_discard (h : gmap TablePtr DataTable) l p q :
  p ∉ l → is_table h p = false →
  (if bool_decide (q ∈ l) && negb (is_table (delete p h) q) then None
   else delete p h !! q) =
  (if bool_decide (q ∈ l ++ [p]) && negb (is_table h q) then None else h !! q).
Proof.
  intros Hp Ht. destruct (decide (q = p)) as [->|Hne].
  - rewrite (bool_decide_eq_false_2 (p ∈ l)) by done.
    rewrite (bool_decide_eq_true_2 (p ∈ l ++ [p]))
      by (apply elem_of_app; right; by left).
    rewrite Ht. cbn. apply lookup_delete_eq.
  - assert (E : bool_decide (q ∈ l ++ [p]) = bool_decide (q ∈ l)).
    { apply bool_decide_ext. rewrite elem_of_app, list_elem_of_singleton. tauto. }
    rewrite E. unfold is_table. by rewrite lookup_delete_ne.
Qed.

Lemma heap_after_keep (h : gmap TablePtr DataTable) l p q :
  p ∉ l → is_table h p = true →
  (if bool_decide (q ∈ l) && negb (is_table h q) then None else h !! q) =
  (if bool_decide (q ∈ l ++ [p]) && negb (is_table h q) then None else h !! q).
Proof.
  intros Hp Ht. destruct (decide (q = p)) as [->|Hne].
  - rewrite (bool_decide_eq_false_2 (p ∈ l)) by done.
    rewrite Ht. cbn [negb andb]. by rewrite andb_false_r.
  - assert (E : bool_decide (q ∈ l ++ [p]) = bool_decide (q ∈ l)).
    { apply bool_decide_ext. rewrite elem_of_app, list_elem_of_singleton. tauto. }
    by rewrite E.
Qed.

Lemma classify_resultsets_spec l :
  ∀ env w,
    _resultsets (connection w) = l → NoDup l →
    (∀ p, p ∈ l → is_Some (heap w !! p)) →
    ∃ w',
      classify_resultsets (length l) env w =
        (Return (mkConductor
                   (resultsets env ++ rev (List.filter (is_table (heap w)) l))
                   (scripts env ++ rev (omap (script_text (heap w)) l))
                   (html env ++ rev (omap (html_text (heap w)) l))),
         w') ∧
      _resultsets (connection w') = [] ∧
      events w' = events w ∧
      _dbms_paths w' = _dbms_paths w ∧
      _scripts w' = _scripts w ∧
      (∀ q, heap w' !! q =
            if bool_decide (q ∈ l) && negb (is_table (heap w) q) then None
            else heap w !! q).
Proof.
  induction l as [|p l IH] using rev_ind; intros env w Hrs Hnd Hlive.
  - exists w. cbn [length classify_resultsets List.filter omap list_omap rev].
    rewrite !app_nil_r. destruct env. repeat split; try done.
  - apply NoDup_app in Hnd as (Hnd & Hpl & _).
    assert (Hp : p ∉ l). { intros Hin. apply (Hpl _ Hin). by left. }
    destruct (Hlive p) as [t Ht]; [apply elem_of_app; right; by left|].
    rewrite length_app, Nat.add_1_r.
    rewrite (classify_resultsets_step _ _ _ _ _ Hrs Ht).
    assert (Hrs' : _resultsets (connection (removeAt (length l) w)) = l).
    { cbn [removeAt set_connection connection _resultsets]. rewrite Hrs. apply delete_last. }
    rewrite List.filter_app, !omap_app, !rev_app_distr.
    cbn [List.filter omap list_omap rev app].
    assert (Hk : classify <$> heap w !! p = Some (classify t)) by (by rewrite Ht).
    unfold is_table at 1, script_text at 1, html_text at 1. rewrite Hk.
    assert (Hlive' : ∀ h : gmap TablePtr DataTable, (∀ q, q ∈ l → h !! q = heap w !! q) →
                          ∀ q, q ∈ l → is_Some (h !! q)).
    { intros h Hh q Hq. rewrite Hh by done. apply Hlive, elem_of_app. by left. }
    assert (Hdel : ∀ q, q ∈ l → delete p (heap w) !! q = heap w !! q).
    { intros q Hq. apply lookup_delete_ne. by intros ->. }
    destruct (classify t) eqn:Hc; cbn [rev app].
    + destruct (IH (appendScript env text) (delete_table p (removeAt (length l) w)))
        as (w' & Hrun & H1 & H2 & H3 & H4 & H5); [done|done|by apply Hlive'|].
      exists w'. rewrite Hrun.
      destruct (kinds_agree _ _ l Hdel) as (E1 & E2 & E3).
      cbn [delete_table set_heap heap removeAt set_connection] in *.
      rewrite E1, E2, E3. cbn [appendScript resultsets scripts html].
      rewrite <-!app_assoc. repeat split; try done.
      intros q. rewrite H5. apply heap_after_discard; [done|].
      unfold is_table. by rewrite Hk.
    + destruct (IH (appendHtml env text) (delete_table p (removeAt (length l) w)))
        as (w' & Hrun & H1 & H2 & H3 & H4 & H5); [done|done|by apply Hlive'|].
      exists w'. rewrite Hrun.
      destruct (kinds_agree _ _ l Hdel) as (E1 & E2 & E3).
      cbn [delete_table set_heap heap removeAt set_connection] in *.
      rewrite E1, E2, E3. cbn [appendHtml resultsets scripts html].
      rewrite <-!app_assoc. repeat split; try done.
      intros q. rewrite H5. apply heap_after_discard; [done|].
      unfold is_table. by rewrite Hk.
    + destruct (IH (appendTable env p) (removeAt (length l) w))
        as (w' & Hrun & H1 & H2 & H3 & H4 & H5); [done|done|by apply Hlive'|].
      exists w'. rewrite Hrun.
      cbn [heap removeAt set_connection] in *.
      cbn [appendTable resultsets scripts html].
      rewrite <-!app_assoc. repeat split; try done.
      intros q. rewrite H5. apply heap_after_keep; [done|].
      unfold is_table. by rewrite Hk.
Qed.

(** ** Running a SQL script *)

Lemma resultsets_owned_lookup_only w w' :
  lookup_only w w' → resultsets_owned w → resultsets_owned w'.
Proof.
  intros (Hh & _ & _ & _ & (_ & _ & _ & _ & Hrs & _) & _) [Hnd Hlive].
  unfold resultsets_owned. rewrite Hrs, Hh. done.
Qed.

Lemma replace_macros_world macros envCallback query w :
  (replace_macros macros envCallback query w).2 =
  fold_left (λ w m, log (EvCallback m) w) macros w.
Proof.
  revert query w. induction macros as [|m rest IH]; intros query w; [done|].
  cbn [replace_macros fold_left]. apply IH.
Qed.

Lemma log_callbacks_tables macros w :
  heap (fold_left (λ w m, log (EvCallback m) w) macros w) = heap w ∧
  connection (fold_left (λ w m, log (EvCallback m) w) macros w) = connection w.
Proof.
  revert w. induction macros as [|m rest IH]; intros w; [done|].
  cbn [fold_left]. destruct (IH (log (EvCallback m) w)) as [-> ->]. done.
Qed.

Lemma resultsets_owned_expand_macros query envCallback w :
  resultsets_owned w → resultsets_owned (expand_macros query envCallback w).2.
Proof.
  unfold expand_macros, resultsets_owned. rewrite replace_macros_world.
  by destruct (log_callbacks_tables (collect_macros query) w) as [-> ->].
Qed.

Lemma resultsets_owned_store w t :
  resultsets_owned w → resultsets_owned (store_resultset w t).
Proof.
  intros [Hnd Hlive]. unfold store_resultset, new_table, resultsets_owned.
  cbn [set_connection set_heap connection heap _resultsets].
  set (p := fresh (dom (heap w))).
  assert (Hp : heap w !! p = None).
  { apply not_elem_of_dom. apply is_fresh. }
  split.
  - apply NoDup_app. split; [done|]. split; [|apply NoDup_singleton].
    intros x Hx Hxp. apply list_elem_of_singleton in Hxp as ->.
    destruct (Hlive _ Hx) as [t' Ht']. congruence.
  - intros q [Hq|Hq]%elem_of_app; [|apply list_elem_of_singleton in Hq as ->].
    + destruct (decide (q = p)) as [->|Hne].
      * rewrite lookup_insert_eq. by eexists.
      * rewrite lookup_insert_ne by done. by apply Hlive.
    + rewrite lookup_insert_eq. by eexists.
Qed.

Lemma resultsets_owned_db_execute query w :
  resultsets_owned w → resultsets_owned (db_execute query w).
Proof.
  intros H. unfold db_execute.
  change (respond (connection w)) with (respond (connection (log (EvExecute query) w))).
  assert (H' : resultsets_owned (log (EvExecute query) w)) by done.
  revert H'. generalize (log (EvExecute query) w) at 1 3 as w0.
  generalize (respond (connection (log (EvExecute query) w)) query) as ts.
  induction ts as [|t ts IH]; intros w0 H0; [done|].
  cbn [fold_left]. apply IH. by apply resultsets_owned_store.
Qed.

(** What [execute] does with a SQL script, once the script is found. *)
Lemma execute_sql context objectType envCallback w s w1 :
  getScript the_connection context objectType w = (Return (Some s), w1) →
  type s = SQL →
  resultsets_owned w →
  let w3 := db_execute (expand_macros (body s) envCallback w1).1
                       (expand_macros (body s) envCallback w1).2 in
  let rs := _resultsets (connection w3) in
  ∃ w4,
    execute the_connection context objectType envCallback w =
      (Return (Some (mkConductor (rev (List.filter (is_table (heap w3)) rs))
                                 (rev (omap (script_text (heap w3)) rs))
                                 (rev (omap (html_text (heap w3)) rs)))), w4) ∧
    _resultsets (connection w4) = [] ∧
    (∀ q, heap w4 !! q =
          if bool_decide (q ∈ rs) && negb (is_table (heap w3) q) then None
          else heap w3 !! q) ∧
    NoDup rs ∧ (∀ p, p ∈ rs → is_Some (heap w3 !! p)).
Proof.
  intros Hget Hty Hown w3 rs.
  assert (Hown3 : resultsets_owned w3).
  { apply resultsets_owned_db_execute, resultsets_owned_expand_macros.
    eapply resultsets_owned_lookup_only; [|done]. by eapply Quiet_getScript. }
  destruct Hown3 as [Hnd Hlive].
  destruct (classify_resultsets_spec rs new_conductor w3 eq_refl Hnd Hlive)
    as (w4 & Hrun & Hrs4 & _ & _ & _ & Hheap).
  exists w4. unfold execute. rewrite Hget.
  destruct (expand_macros (body s) envCallback w1) as [query w2] eqn:Hex.
  rewrite Hty. cbn zeta. cbn [fst snd] in *. fold w3. fold rs. rewrite Hrun.
  done.
Qed.

Lemma store_resultsets_spec ts :
  ∀ w0, ∃ ps,
    _resultsets (connection (fold_left store_resultset ts w0)) =
      _resultsets (connection w0) ++ ps ∧
    Forall2 (λ p t, heap (fold_left store_resultset ts w0) !! p = Some t) ps ts ∧
    (∀ q, is_Some (heap w0 !! q) →
          heap (fold_left store_resultset ts w0) !! q = heap w0 !! q).
Proof.
  induction ts as [|t ts IH]; intros w0.
  - exists []. by rewrite app_nil_r.
  - cbn [fold_left]. destruct (IH (store_resultset w0 t)) as (ps & Hrs & Hall & Hkeep).
    set (p := fresh (dom (heap w0))).
    assert (Hp : heap w0 !! p = None) by (apply not_elem_of_dom, is_fresh).
    assert (Hh1 : heap (store_resultset w0 t) = <[p:=t]> (heap w0)) by done.
    assert (Hr1 : _resultsets (connection (store_resultset w0 t)) =
                  _resultsets (connection w0) ++ [p]) by done.
    exists (p :: ps). split; [by rewrite Hrs, Hr1, <-app_assoc|]. split.
    + constructor; [|done]. rewrite Hkeep; rewrite Hh1, lookup_insert_eq; by eauto.
    + intros q Hq. rewrite Hkeep.
      * rewrite Hh1. apply lookup_insert_ne. intros <-. rewrite Hp in Hq. by destruct Hq.
      * rewrite Hh1. destruct (decide (p = q)) as [->|Hne].
        -- rewrite lookup_insert_eq. by eexists.
        -- by rewrite lookup_insert_ne.
Qed.

Lemma elem_of_rev {A} (x : A) (l : list A) : x ∈ rev l ↔ x ∈ l.
Proof. by rewrite !list_elem_of_In, <-in_rev. Qed.

Lemma elem_of_List_filter {A} (f : A → bool) (x : A) (l : list A) :
  x ∈ List.filter f l ↔ x ∈ l ∧ f x = true.
Proof. by rewrite !list_elem_of_In, filter_In. Qed.

(** C10.  A SQL script whose execution leaves several result sets: the
    connection holds them in the order it produced them, after those it
    held before; the loop takes them from the last to the first, so the
    tables, the sub-scripts and the HTML fragments of the conductor are
    each in the reverse of that order. *)
Theorem sql_results_are_collected_in_reverse context objectType envCallback w s w1 :
  getScript the_connection context objectType w = (Return (Some s), w1) →
  type s = SQL →
  resultsets_owned w →
  let query := (expand_macros (body s) envCallback w1).1 in
  let w3 := db_execute query (expand_macros (body s) envCallback w1).2 in
  let rs := _resultsets (connection w3) in
  (∃ produced,
     rs = _resultsets (connection w) ++ produced ∧
     Forall2 (λ p t, heap w3 !! p = Some t) produced (respond (connection w) query)) ∧
  ∃ env w4,
    execute the_connection context objectType envCallback w = (Return (Some env), w4) ∧
    resultsets env = rev (List.filter (is_table (heap w3)) rs) ∧
    scripts env = rev (omap (script_text (heap w3)) rs) ∧
    html env = rev (omap (html_text (heap w3)) rs).
Proof.
  intros Hget Hty Hown query w3 rs. split.
  - destruct (Quiet_getScript _ _ _ _ _ _ Hget)
      as (_ & _ & _ & _ & (_ & _ & _ & _ & Hrs1 & Hre1) & _).
    unfold rs, w3, db_execute.
    set (w2 := (expand_macros (body s) envCallback w1).2).
    assert (Hc2 : connection w2 = connection w1).
    { unfold w2, expand_macros. rewrite replace_macros_world.
      apply log_callbacks_tables. }
    destruct (store_resultsets_spec (respond (connection w2) query)
                (log (EvExecute query) w2)) as (ps & Hrs & Hall & _).
    exists ps. cbn [log connection] in Hrs. rewrite Hrs, Hc2, Hrs1.
    split; [done|]. by rewrite <-Hre1, <-Hc2.
  - destruct (execute_sql context objectType envCallback w s w1 Hget Hty Hown)
      as (w4 & Hrun & _).
    eexists _, w4. split; [exact Hrun|done].
Qed.

(** C2.  Classification of the result sets of a SQL script.  For every
    result set the connection holds once the query has run: with one row,
    one column and the column name [script], its cell is in the
    sub-scripts of the conductor, it is not among the tables and the
    object is deleted; the same with the column name [html] and the HTML
    fragments; with one row, one column and another column name, and
    whenever it has not exactly one row and one column, it is among the
    tables of the conductor and still alive.  The connection is left
    holding none of them. *)
Theorem sql_result_classification context objectType envCallback w s w1 :
  getScript the_connection context objectType w = (Return (Some s), w1) →
  type s = SQL →
  resultsets_owned w →
  let w3 := db_execute (expand_macros (body s) envCallback w1).1
                       (expand_macros (body s) envCallback w1).2 in
  ∃ env w4,
    execute the_connection context objectType envCallback w = (Return (Some env), w4) ∧
    _resultsets (connection w4) = [] ∧
    ∀ p t, p ∈ _resultsets (connection w3) → heap w3 !! p = Some t →
      (rowCount t = 1%nat → columnCount t = 1%nat → columnName t 0 = "script" →
         (value t 0 0 ∈ scripts env) ∧ (p ∉ resultsets env) ∧ heap w4 !! p = None)
      ∧ (rowCount t = 1%nat → columnCount t = 1%nat → columnName t 0 = "html" →
         (value t 0 0 ∈ html env) ∧ (p ∉ resultsets env) ∧ heap w4 !! p = None)
      ∧ (rowCount t = 1%nat → columnCount t = 1%nat →
         columnName t 0 ≠ "script" → columnName t 0 ≠ "html" →
         p ∈ resultsets env ∧ heap w4 !! p = Some t)
      ∧ (¬ (rowCount t = 1%nat ∧ columnCount t = 1%nat) →
         p ∈ resultsets env ∧ heap w4 !! p = Some t).
Proof.
  intros Hget Hty Hown w3.
  destruct (execute_sql context objectType envCallback w s w1 Hget Hty Hown)
    as (w4 & Hrun & Hrs4 & Hheap & _).
  fold w3 in Hrun, Hheap.
  eexists _, w4. split; [exact Hrun|]. split; [done|].
  cbn [resultsets scripts html].
  intros p t Hp Ht.
  assert (Hk : classify <$> heap w3 !! p = Some (classify t)) by (by rewrite Ht).
  assert (Hdiscard : is_table (heap w3) p = false →
            (p ∉ rev (List.filter (is_table (heap w3)) (_resultsets (connection w3)))) ∧
            heap w4 !! p = None).
  { intros Hf. split.
    - rewrite elem_of_rev, elem_of_List_filter. intros [_ ?]. congruence.
    - rewrite Hheap, Hf, bool_decide_eq_true_2 by done. done. }
  assert (Hkeep : is_table (heap w3) p = true →
            p ∈ rev (List.filter (is_table (heap w3)) (_resultsets (connection w3))) ∧
            heap w4 !! p = Some t).
  { intros Hf. split.
    - by rewrite elem_of_rev, elem_of_List_filter.
    - rewrite Hheap, Hf, andb_false_r. done. }
  unfold is_table in Hdiscard, Hkeep. rewrite Hk in Hdiscard, Hkeep.
  unfold classify in Hdiscard, Hkeep.
  split; [|split; [|split]].
  - intros Hr Hc Hn. rewrite Hr, Hc, Hn in Hdiscard.
    split; [|by apply Hdiscard].
    rewrite elem_of_rev, list_elem_of_omap. exists p. split; [done|].
    unfold script_text. rewrite Hk. unfold classify. by rewrite Hr, Hc, Hn.
  - intros Hr Hc Hn. rewrite Hr, Hc, Hn in Hdiscard.
    split; [|by apply Hdiscard].
    rewrite elem_of_rev, list_elem_of_omap. exists p. split; [done|].
    unfold html_text. rewrite Hk. unfold classify. by rewrite Hr, Hc, Hn.
  - intros Hr Hc Hn1 Hn2. rewrite Hr, Hc in Hkeep. cbn [Nat.eqb andb] in Hkeep.
    rewrite !bool_decide_eq_false_2 in Hkeep by done. by apply Hkeep.
  - intros Hn. apply Hkeep.
    destruct (Nat.eqb_spec (rowCount t) 1), (Nat.eqb_spec (columnCount t) 1); try done.
    by destruct Hn.
Qed.

Lemma sql_results_reverse_witness :
  getScript the_connection Tree "tables" Demo.world =
    (Return (Some Demo.tables_script), Demo.after_lookup) ∧
  type Demo.tables_script = SQL ∧
  resultsets_owned Demo.world ∧
  (let query := (expand_macros (body Demo.tables_script) Demo.resolver Demo.after_lookup).1 in
   let w3 := db_execute query
               (expand_macros (body Demo.tables_script) Demo.resolver Demo.after_lookup).2 in
   let rs := _resultsets (connection w3) in
   (∃ produced,
      rs = _resultsets (connection Demo.world) ++ produced ∧
      Forall2 (λ p t, heap w3 !! p = Some t) produced
              (respond (connection Demo.world) query)) ∧
   ∃ env w4,
     execute the_connection Tree "tables" Demo.resolver Demo.world =
       (Return (Some env), w4) ∧
     resultsets env = rev (List.filter (is_table (heap w3)) rs) ∧
     scripts env = rev (omap (script_text (heap w3)) rs) ∧
     html env = rev (omap (html_text (heap w3)) rs)).
Proof.
  assert (H1 : getScript the_connection Tree "tables" Demo.world =
    (Return (Some Demo.tables_script), Demo.after_lookup))
    by (rewrite (after_lookup_eq "tables"); apply pair_of_fst; reflexivity).
  assert (H2 : type Demo.tables_script = SQL) by reflexivity.
  assert (H3 : resultsets_owned Demo.world).
  { split; [constructor|]. intros p Hp. destruct (not_elem_of_nil _ Hp). }
  split; [exact H1|]. split; [exact H2|]. split; [exact H3|].
  exact (sql_results_are_collected_in_reverse Tree "tables" Demo.resolver
           Demo.world Demo.tables_script Demo.after_lookup H1 H2 H3).
Defined.

Lemma sql_result_classification_witness :
  getScript the_connection Tree "tables" Demo.world =
    (Return (Some Demo.tables_script), Demo.after_lookup) ∧
  type Demo.tables_script = SQL ∧
  resultsets_owned Demo.world ∧
  (let w3 := db_execute
               (expand_macros (body Demo.tables_script) Demo.resolver Demo.after_lookup).1
               (expand_macros (body Demo.tables_script) Demo.resolver Demo.after_lookup).2 in
   ∃ env w4,
     execute the_connection Tree "tables" Demo.resolver Demo.world =
       (Return (Some env), w4) ∧
     _resultsets (connection w4) = [] ∧
     ∀ p t, p ∈ _resultsets (connection w3) → heap w3 !! p = Some t →
       (rowCount t = 1%nat → columnCount t = 1%nat → columnName t 0 = "script" →
          (value t 0 0 ∈ scripts env) ∧ (p ∉ resultsets env) ∧ heap w4 !! p = None)
       ∧ (rowCount t = 1%nat → columnCount t = 1%nat → columnName t 0 = "html" →
          (value t 0 0 ∈ html env) ∧ (p ∉ resultsets env) ∧ heap w4 !! p = None)
       ∧ (rowCount t = 1%nat → columnCount t = 1%nat →
          columnName t 0 ≠ "script" → columnName t 0 ≠ "html" →
          p ∈ resultsets env ∧ heap w4 !! p = Some t)
       ∧ (¬ (rowCount t = 1%nat ∧ columnCount t = 1%nat) →
          p ∈ resultsets env ∧ heap w4 !! p = Some t)).
Proof.
  assert (H1 : getScript the_connection Tree "tables" Demo.world =
    (Return (Some Demo.tables_script), Demo.after_lookup))
    by (rewrite (after_lookup_eq "tables"); apply pair_of_fst; reflexivity).
  assert (H2 : type Demo.tables_script = SQL) by reflexivity.
  assert (H3 : resultsets_owned Demo.world).
  { split; [constructor|]. intros p Hp. destruct (not_elem_of_nil _ Hp). }
  split; [exact H1|]. split; [exact H2|]. split; [exact H3|].
  exact (sql_result_classification Tree "tables" Demo.resolver
           Demo.world Demo.tables_script Demo.after_lookup H1 H2 H3).
Defined.

(** The SQL script [tables] of the demo installation answers with a
    sub-script, an HTML fragment, a one-cell table and a wider table, in
    that order. *)
Example demo_tables_run :
  (execute the_connection Tree "tables" Demo.resolver Demo.world).1 =
  Return (Some (mkConductor [4%positive; 3%positive] ["select 2"] ["<b>"])).
Proof. by vm_compute. Qed.

(** The end-to-end scenario of the specification. *)
Example demo_indexes_run :
  (execute the_connection Tree "indexes" Demo.resolver Demo.world).1 =
  Return (Some (mkConductor [] [] ["1"])).
Proof. by vm_compute. Qed.

(** ** Running an embedded script *)

Lemma run_calls_conductor calls :
  ∀ env w,
    resultsets (run_calls calls env w).1 = resultsets env ++ returned_tables calls ∧
    scripts (run_calls calls env w).1 = scripts env ++ returned_scripts calls ∧
    html (run_calls calls env w).1 = html env.
Proof.
  induction calls as [|c calls IH]; intros env w.
  - cbn. by rewrite !app_nil_r.
  - destruct c; cbn [run_calls returned_tables returned_scripts omap list_omap];
      fold (returned_tables calls); fold (returned_scripts calls);
      match goal with |- context [run_calls calls ?e ?v] =>
        destruct (IH e v) as (-> & -> & ->) end;
      cbn [appendTable appendScript resultsets scripts html];
      by rewrite <-?app_assoc.
Qed.


Lemma replace_macros_sandbox macros envCallback query w :
  sandbox (replace_macros macros envCallback query w).2 = sandbox w.
Proof.
  revert query w. induction macros as [|m rest IH]; intros query w; [done|].
  cbn [replace_macros]. by rewrite IH.
Qed.




(** ** Loading the scripts of a directory *)

Lemma bunch_at_insert path b w :
  bunch_at path (set_scripts (insert path b) w) = b.
Proof. unfold bunch_at. cbn [set_scripts _scripts]. by rewrite lookup_insert_eq. Qed.

Lemma bunch_at_touch path w : bunch_at path (touch_bunch path w) = bunch_at path w.
Proof.
  unfold bunch_at, touch_bunch. cbn [set_scripts _scripts]. by rewrite lookup_insert_eq.
Qed.

(** One round of the loop of [refresh]. *)
Lemma load_files_cons files path context f rest w :
  load_files files path context (f :: rest) w =
  if is_script_file f
  then if readable f
       then load_files files path context rest
              (set_scripts
                 (insert path (load_one context (connection w) (bunch_at path w) f))
                 (log (EvFileOpen (filePath path f)) w))
       else (Throw ("can't open " +:+
                    match files with f0 :: _ => filePath path f0 | [] => "" end),
             log (EvFileOpen (filePath path f)) w)
  else load_files files path context rest w.
Proof.
  cbn [load_files]. unfold load_one, is_script_file.
  destruct (is_script_suffix _) eqn:E; cbn [negb]; [|done].
  run. destruct (readable f); cbn [negb]; [|done].
  by destruct context.
Qed.

Lemma load_one_skip context c b f : is_script_file f = false → load_one context c b f = b.
Proof. unfold load_one. by intros ->. Qed.

Lemma load_files_readable files path context todo :
  ∀ w,
    (∀ g, g ∈ todo → is_script_file g = true → readable g = true) →
    ∃ w',
      load_files files path context todo w = (Return tt, w') ∧
      bunch_at path w' = loaded_from context (connection w) todo (bunch_at path w).
Proof.
  induction todo as [|f rest IH]; intros w Hread.
  - by exists w.
  - rewrite load_files_cons. cbn [loaded_from fold_left].
    assert (Hrest : ∀ g, g ∈ rest → is_script_file g = true → readable g = true).
    { intros g Hg. apply Hread. by right. }
    destruct (is_script_file f) eqn:Hf.
    + rewrite (Hread f) by (done || by left).
      destruct (IH (set_scripts
                 (insert path (load_one context (connection w) (bunch_at path w) f))
                 (log (EvFileOpen (filePath path f)) w)) Hrest) as (w' & Hrun & Hb).
      exists w'. split; [done|]. rewrite Hb, bunch_at_insert. done.
    + destruct (IH w Hrest) as (w' & Hrun & Hb).
      exists w'. split; [done|]. by rewrite Hb, load_one_skip.
Qed.

Lemma load_files_unreadable files path context before f after :
  ∀ w,
    (∀ g, g ∈ before → is_script_file g = true → readable g = true) →
    is_script_file f = true → readable f = false →
    ∃ message w',
      load_files files path context (before ++ f :: after) w = (Throw message, w') ∧
      bunch_at path w' = loaded_from context (connection w) before (bunch_at path w).
Proof.
  induction before as [|g rest IH]; intros w Hread Hf Hr.
  - cbn [app]. rewrite load_files_cons, Hf, Hr. by eexists _, _.
  - cbn [app]. rewrite load_files_cons. cbn [loaded_from fold_left].
    assert (Hrest : ∀ x, x ∈ rest → is_script_file x = true → readable x = true).
    { intros x Hx. apply Hread. by right. }
    destruct (is_script_file g) eqn:Hg.
    + rewrite (Hread g) by (done || by left).
      destruct (IH (set_scripts
                 (insert path (load_one context (connection w) (bunch_at path w) g))
                 (log (EvFileOpen (filePath path g)) w)) Hrest Hf Hr) as (m & w' & Hrun & Hb).
      exists m, w'. split; [done|]. rewrite Hb, bunch_at_insert. done.
    + destruct (IH w Hrest Hf Hr) as (m & w' & Hrun & Hb).
      exists m, w'. split; [done|]. by rewrite Hb, load_one_skip.
Qed.

Lemma loaded_from_same_version context c c' files b :
  dbmsComparableVersion c' = dbmsComparableVersion c →
  loaded_from context c' files b = loaded_from context c files b.
Proof.
  intros Hv. unfold loaded_from. revert b.
  induction files as [|f rest IH]; intros b; [done|].
  cbn [fold_left]. rewrite IH. unfold load_one, script_of. by rewrite Hv.
Qed.

(** [refresh] once the directory is resolved. *)
Lemma refresh_resolved context w path w1 :
  dbmsScriptPath the_connection context w = (Return path, w1) →
  refresh the_connection context w =
  load_files (entryInfoList (fs w1) path) path context (entryInfoList (fs w1) path)
    (log (EvEntryInfoList path) (set_scripts (insert path ∅) (touch_bunch path w1))).
Proof. intros H. unfold refresh. run. by rewrite H. Qed.

(** C5, as amended.  When [refresh] meets a script file that cannot be
    opened, it throws and stops there; nothing is rolled back: the bunch
    of the directory, emptied when the refresh began, is left holding the
    scripts of the script files listed before the unreadable one. *)
Theorem failed_refresh_keeps_loaded_scripts context w path w1 before f after :
  dbmsScriptPath the_connection context w = (Return path, w1) →
  entryInfoList (fs w) path = before ++ f :: after →
  (∀ g, g ∈ before → is_script_file g = true → readable g = true) →
  is_script_file f = true →
  readable f = false →
  ∃ message w',
    refresh the_connection context w = (Throw message, w') ∧
    bunch_at path w' = loaded_from context (connection w) before ∅.
Proof.
  intros Hpath Hfiles Hread Hf Hr.
  destruct (Quiet_dbmsScriptPath _ _ _ _ _ Hpath)
    as (_ & Hfs & _ & _ & (_ & _ & _ & Hv & _ & _) & _).
  rewrite (refresh_resolved _ _ _ _ Hpath), Hfs, Hfiles.
  destruct (load_files_unreadable (before ++ f :: after) path context before f after
              (log (EvEntryInfoList path) (set_scripts (insert path ∅) (touch_bunch path w1)))
              Hread Hf Hr) as (m & w' & Hrun & Hb).
  exists m, w'. split; [done|]. rewrite Hb.
  change (bunch_at path (log _ ?v)) with (bunch_at path v). rewrite bunch_at_insert.
  by apply loaded_from_same_version.
Qed.

Lemma failed_refresh_witness :
  dbmsScriptPath the_connection Content Demo.world =
    (Return Demo.content_dir, (dbmsScriptPath the_connection Content Demo.world).2) ∧
  entryInfoList (fs Demo.world) Demo.content_dir =
    [mkFile "columns.sql" true "select 1"] ++ mkFile "locked.sql" false "" ::
    [mkFile "rows.sql" true "select 2"] ∧
  (∀ g, g ∈ [mkFile "columns.sql" true "select 1"] →
        is_script_file g = true → readable g = true) ∧
  is_script_file (mkFile "locked.sql" false "") = true ∧
  readable (mkFile "locked.sql" false "") = false ∧
  ∃ message w',
    refresh the_connection Content Demo.world = (Throw message, w') ∧
    bunch_at Demo.content_dir w' =
      loaded_from Content (connection Demo.world)
        [mkFile "columns.sql" true "select 1"] ∅.
Proof.
  assert (H1 : dbmsScriptPath the_connection Content Demo.world =
    (Return Demo.content_dir, (dbmsScriptPath the_connection Content Demo.world).2))
    by reflexivity.
  assert (H2 : entryInfoList (fs Demo.world) Demo.content_dir =
    [mkFile "columns.sql" true "select 1"] ++ mkFile "locked.sql" false "" ::
    [mkFile "rows.sql" true "select 2"]) by reflexivity.
  assert (H3 : ∀ g, g ∈ [mkFile "columns.sql" true "select 1"] →
        is_script_file g = true → readable g = true).
  { intros g Hg _. apply list_elem_of_singleton in Hg. by rewrite Hg. }
  assert (H4 : is_script_file (mkFile "locked.sql" false "") = true) by reflexivity.
  assert (H5 : readable (mkFile "locked.sql" false "") = false) by reflexivity.
  split; [exact H1|]. split; [exact H2|]. split; [exact H3|].
  split; [exact H4|]. split; [exact H5|].
  exact (failed_refresh_keeps_loaded_scripts Content Demo.world Demo.content_dir _
           _ _ _ H1 H2 H3 H4 H5).
Defined.

(** C5 as stated fails.  In the demo installation the second script file
    of the content directory cannot be opened: [refresh] throws, and the
    bunch of that directory is left holding the script loaded before the
    failure; a later [getScript] is served from that partial bunch, finding
    the first script and missing the third, without reading the directory
    again. *)
Lemma failed_refresh_is_not_rolled_back :
  (∃ message, (refresh the_connection Content Demo.world).1 = Throw message) ∧
  bunch_at Demo.content_dir (refresh the_connection Content Demo.world).2 =
    {[ "columns" := mkScript "select 1" SQL ]} ∧
  (getScript the_connection Content "columns"
     (refresh the_connection Content Demo.world).2).1 =
    Return (Some (mkScript "select 1" SQL)) ∧
  (getScript the_connection Content "rows"
     (refresh the_connection Content Demo.world).2).1 = Return None.
Proof.
  split; [eexists; reflexivity|].
  split; [reflexivity|]. split; reflexivity.
Qed.


(** ** Looking a script up *)

Lemma dbmsScriptPath_caches context w path w1 :
  dbmsScriptPath the_connection context w = (Return path, w1) →
  _scripts w1 = _scripts w ∧
  ∃ base, _dbms_paths w1 !! dbmsID (connection w1) = Some base ∧
          path = base +:+ contextFolder context.
Proof.
  intros H. apply dbmsScriptPath_return in H as [(base & Hc & -> & ->)|(Hc & Hp & ->)].
  - split; [done|]. by exists base.
  - split; [done|]. exists (vendor_path w). split; [|done].
    cbn [set_dbms_paths _dbms_paths]. apply lookup_insert_eq.
Qed.

Lemma loaded_from_lookup_None context c files objectType :
  ∀ b,
    b !! objectType = None →
    (∀ f, f ∈ files → is_script_file f = true → baseName (fileName f) ≠ objectType) →
    loaded_from context c files b !! objectType = None.
Proof.
  unfold loaded_from. induction files as [|f rest IH]; intros b Hb Hno; [done|].
  cbn [fold_left]. apply IH; [|intros g Hg; apply Hno; by right].
  unfold load_one. destruct (is_script_file f) eqn:Hf; [|done].
  rewrite lookup_insert_ne; [done|]. apply Hno; [by left|done].
Qed.

(** [getScript] for an object type that neither the cache nor the
    directory has. *)
Lemma getScript_absent context objectType w path w1 :
  dbmsScriptPath the_connection context w = (Return path, w1) →
  bunch_at path w !! objectType = None →
  (∀ f, f ∈ entryInfoList (fs w) path → is_script_file f = true →
        readable f = true ∧ baseName (fileName f) ≠ objectType) →
  ∃ w', getScript the_connection context objectType w = (Return None, w').
Proof.
  intros Hpath Hcache Hfiles.
  destruct (dbmsScriptPath_caches _ _ _ _ Hpath) as (Hsc & base & Hbase & Hp).
  destruct (Quiet_dbmsScriptPath _ _ _ _ _ Hpath) as (_ & Hfs & _).
  assert (Hb1 : bunch_at path w1 = bunch_at path w) by (unfold bunch_at; by rewrite Hsc).
  unfold getScript. run. rewrite Hpath. cbn beta iota.
  rewrite bunch_at_touch, Hb1.
  destruct (bool_decide (bunch_at path w = ∅)) eqn:Hempty.
  - assert (Hagain : dbmsScriptPath the_connection context (touch_bunch path w1) =
                     (Return path, open_connection (touch_bunch path w1))).
    { rewrite Hp. by apply dbmsScriptPath_hit. }
    rewrite (refresh_resolved _ _ _ _ Hagain).
    change (fs (open_connection (touch_bunch path w1))) with (fs w1). rewrite Hfs.
    edestruct (load_files_readable (entryInfoList (fs w) path) path context
                 (entryInfoList (fs w) path)) as (w' & Hrun & Hb).
    { intros g Hg Hs. by apply Hfiles. }
    rewrite Hrun. cbn beta iota. exists w'. rewrite Hb.
    rewrite loaded_from_lookup_None; [done| |].
    + change (bunch_at path (log _ ?v)) with (bunch_at path v).
      by rewrite bunch_at_insert.
    + intros f Hf Hs. by apply Hfiles.
  - eexists. by rewrite bunch_at_touch, Hb1, Hcache.
Qed.

(** C9.  An object type with no script: when the directory resolves, the
    cache holds no script for the object type and no readable script file
    of the directory has it as base name, [getScript] returns the absent
    result, which is not an exception; [execute] then returns the absent
    conductor and does nothing beyond that lookup: it ends in the very
    world [getScript] ends in, the heap is untouched, and among the calls
    made there is no query executed on the connection, no evaluation in
    the sandbox and no call of the environment callback. *)
Theorem missing_script_is_absent context objectType envCallback w path w1 :
  dbmsScriptPath the_connection context w = (Return path, w1) →
  bunch_at path w !! objectType = None →
  (∀ f, f ∈ entryInfoList (fs w) path → is_script_file f = true →
        readable f = true ∧ baseName (fileName f) ≠ objectType) →
  ∃ w',
    getScript the_connection context objectType w = (Return None, w') ∧
    execute the_connection context objectType envCallback w = (Return None, w') ∧
    heap w' = heap w ∧
    ∃ es, events w' = events w ++ es ∧
          ∀ e, e ∈ es →
               (∀ query, e ≠ EvExecute query) ∧ (∀ program, e ≠ EvEvaluate program) ∧
               (∀ name, e ≠ EvCallback name).
Proof.
  intros Hpath Hcache Hfiles.
  destruct (getScript_absent _ _ _ _ _ Hpath Hcache Hfiles) as (w' & Hget).
  exists w'. split; [done|]. split.
  - unfold execute. by rewrite Hget.
  - destruct (Quiet_getScript _ _ _ _ _ _ Hget) as (Hh & _ & _ & _ & _ & es & He & Hq).
    split; [done|]. exists es. split; [done|].
    intros e He'. rewrite forallb_forall in Hq.
    apply list_elem_of_In in He'. specialize (Hq _ He').
    by destruct e.
Qed.

Lemma missing_script_witness :
  dbmsScriptPath the_connection Tree Demo.world =
    (Return Demo.tree, (dbmsScriptPath the_connection Tree Demo.world).2) ∧
  bunch_at Demo.tree Demo.world !! "triggers" = None ∧
  (∀ f, f ∈ entryInfoList (fs Demo.world) Demo.tree → is_script_file f = true →
        readable f = true ∧ baseName (fileName f) ≠ "triggers") ∧
  ∃ w',
    getScript the_connection Tree "triggers" Demo.world = (Return None, w') ∧
    execute the_connection Tree "triggers" Demo.resolver Demo.world = (Return None, w') ∧
    heap w' = heap Demo.world ∧
    ∃ es, events w' = events Demo.world ++ es ∧
          ∀ e, e ∈ es →
               (∀ query, e ≠ EvExecute query) ∧ (∀ program, e ≠ EvEvaluate program) ∧
               (∀ name, e ≠ EvCallback name).
Proof.
  assert (H1 : dbmsScriptPath the_connection Tree Demo.world =
    (Return Demo.tree, (dbmsScriptPath the_connection Tree Demo.world).2))
    by reflexivity.
  assert (H2 : bunch_at Demo.tree Demo.world !! "triggers" = None) by reflexivity.
  assert (H3 : ∀ f, f ∈ entryInfoList (fs Demo.world) Demo.tree → is_script_file f = true →
        readable f = true ∧ baseName (fileName f) ≠ "triggers").
  { assert (E : entryInfoList (fs Demo.world) Demo.tree =
      [ mkFile "indexes.sql" true "/* V90000+ */ select 1 as html";
        mkFile "tables.sql" true "select * from t where x=$a.b$ and y=$a.b$";
        mkFile "broken.qs" true "returnTable(exec('select 1')); returnScript('x'); fail" ])
      by reflexivity.
    rewrite E. intros f Hf _.
    rewrite !elem_of_cons, elem_of_nil in Hf.
    destruct Hf as [->|[->|[->|[]]]]; (split; [reflexivity|vm_compute; discriminate]). }
  split; [exact H1|]. split; [exact H2|]. split; [exact H3|].
  exact (missing_script_is_absent Tree "triggers" Demo.resolver Demo.world
           Demo.tree _ H1 H2 H3).
Defined.

(** ** Textual replacement *)

Lemma append_cons c a b : String c a +:+ b = String c (a +:+ b).
Proof. done. Qed.

Lemma append_nil_l b : "" +:+ b = b.
Proof. done. Qed.

Lemma startsWith_append tok post : QStr.startsWith (tok +:+ post) tok = true.
Proof.
  induction tok as [|c tok IH]; [done|].
  rewrite append_cons. cbn [QStr.startsWith]. by rewrite Ascii.eqb_refl.
Qed.

Lemma mid_from_append tok post : QStr.mid_from (tok +:+ post) (QStr.size tok) = post.
Proof. induction tok as [|c tok IH]; [done|]. by rewrite append_cons. Qed.

Lemma replace_go_skip k s before after :
  QStr.replace_go k s before after = QStr.replace_go 0 (QStr.mid_from s k) before after.
Proof.
  revert s. induction k as [|k IH]; intros s; [done|].
  destruct s as [|c r]; [done|]. cbn [QStr.replace_go QStr.mid_from]. apply IH.
Qed.

(** The equation of [replace]: at an occurrence the replacement is
    written and the search resumes after the occurrence; elsewhere the
    character is kept. *)
Lemma replace_unfold c r before after :
  before ≠ "" →
  QStr.replace (String c r) before after =
  if QStr.startsWith (String c r) before
  then after +:+ QStr.replace (QStr.mid_from (String c r) (QStr.size before)) before after
  else String c (QStr.replace r before after).
Proof.
  intros Hne. unfold QStr.replace. cbn [QStr.replace_go].
  destruct (QStr.startsWith (String c r) before); [|done].
  rewrite replace_go_skip. destruct before as [|b before']; [done|].
  change (QStr.size (String b before')) with (S (QStr.size before')).
  cbn [QStr.mid_from]. by rewrite Nat.sub_succ, Nat.sub_0_r.
Qed.

Lemma replace_no_occurrence s before after :
  before ≠ "" →
  (∀ i, QStr.startsWith (QStr.mid_from s i) before = false) →
  QStr.replace s before after = s.
Proof.
  intros Hne. induction s as [|c r IH]; intros Hno; [done|].
  rewrite replace_unfold by done.
  pose proof (Hno 0%nat) as H0. cbn [QStr.mid_from] in H0. rewrite H0.
  f_equal. apply IH. intros i. apply (Hno (S i)).
Qed.

Lemma replace_first_occurrence pre before post after :
  before ≠ "" →
  (∀ i, (i < QStr.size pre)%nat →
        QStr.startsWith (QStr.mid_from (pre +:+ before +:+ post) i) before = false) →
  QStr.replace (pre +:+ before +:+ post) before after =
  pre +:+ after +:+ QStr.replace post before after.
Proof.
  intros Hne. induction pre as [|c pre IH]; intros Hno.
  - rewrite !append_nil_l. destruct before as [|b before'] eqn:Eb; [done|].
    rewrite <-Eb in *. assert (∃ c r, before +:+ post = String c r) as (c & r & E).
    { rewrite Eb. by eexists _, _. }
    rewrite E, replace_unfold, <-E by done.
    by rewrite startsWith_append, mid_from_append.
  - rewrite !append_cons, replace_unfold by done.
    specialize (Hno 0%nat) as H0. cbn [QStr.size QStr.mid_from] in H0.
    rewrite !append_cons in H0. rewrite H0 by lia. f_equal. apply IH.
    intros i Hi. specialize (Hno (S i)). cbn [QStr.size] in Hno.
    rewrite !append_cons in Hno. apply Hno. lia.
Qed.

(** ** The list of macros *)

Lemma add_macro_spec macros c :
  NoDup macros →
  NoDup (add_macro macros c) ∧
  (∀ n, n ∈ add_macro macros c ↔ n ∈ macros ∨ n = c) ∧
  macros `prefix_of` add_macro macros c.
Proof.
  intros Hnd. unfold add_macro. case_bool_decide as Hin.
  - split; [done|]. split; [|done]. intros n. split; [by left|]. by intros [?| ->].
  - split; [|split].
    + apply NoDup_app. split; [done|]. split; [|apply NoDup_singleton].
      intros x Hx Hc. apply list_elem_of_singleton in Hc as ->. done.
    + intros n. by rewrite elem_of_app, list_elem_of_singleton.
    + by apply prefix_app_r.
Qed.

Lemma add_macros_spec captures :
  ∀ macros,
    NoDup macros →
    NoDup (fold_left add_macro captures macros) ∧
    (∀ n, n ∈ fold_left add_macro captures macros ↔ n ∈ macros ∨ n ∈ captures) ∧
    macros `prefix_of` fold_left add_macro captures macros.
Proof.
  induction captures as [|c rest IH]; intros macros Hnd.
  - split; [done|]. split; [|done]. intros n. rewrite elem_of_nil. tauto.
  - cbn [fold_left]. destruct (add_macro_spec macros c Hnd) as (H1 & H2 & H3).
    destruct (IH _ H1) as (G1 & G2 & G3). split; [done|]. split.
    + intros n. rewrite G2, H2, elem_of_cons. tauto.
    + by etrans.
Qed.

(** ** The macro pass *)

Lemma replace_macros_text macros envCallback :
  ∀ query w,
    (replace_macros macros envCallback query w).1 =
    fold_left (λ text macro, substitute text macro (envCallback macro)) macros query.
Proof.
  induction macros as [|m rest IH]; intros query w; [done|].
  cbn [replace_macros fold_left]. apply IH.
Qed.

Lemma replace_macros_events macros envCallback :
  ∀ query w,
    events (replace_macros macros envCallback query w).2 =
    events w ++ (EvCallback <$> macros).
Proof.
  induction macros as [|m rest IH]; intros query w.
  - cbn. by rewrite app_nil_r.
  - cbn [replace_macros fmap list_fmap]. rewrite IH. cbn [log events].
    by rewrite <-app_assoc.
Qed.

(** ** Texts whose macro tokens stand apart *)

Lemma append_assoc (a b c : string) : (a +:+ b) +:+ c = a +:+ b +:+ c.
Proof. induction a as [|x a IH]; [done|]. by rewrite !append_cons, IH. Qed.

Lemma append_nil_r (a : string) : a +:+ "" = a.
Proof. induction a as [|x a IH]; [done|]. by rewrite append_cons, IH. Qed.

Lemma size_append (a b : string) : QStr.size (a +:+ b) = (QStr.size a + QStr.size b)%nat.
Proof. induction a as [|x a IH]; [done|]. rewrite append_cons. cbn. by rewrite IH. Qed.

Lemma all_chars_append p (a b : string) :
  all_chars p (a +:+ b) = (all_chars p a && all_chars p b)%bool.
Proof.
  induction a as [|x a IH]; [done|]. rewrite append_cons. cbn [all_chars].
  by rewrite IH, andb_assoc.
Qed.

(** The longest run of a class, when what follows is outside the class. *)
Lemma span_class_run p (a b : string) :
  all_chars p a = true →
  match b with EmptyString => True | String c _ => p c = false end →
  span_class p (a +:+ b) = (a, b).
Proof.
  intros Ha Hb. induction a as [|x a IH].
  - rewrite append_nil_l. destruct b as [|c b]; [done|]. cbn [span_class]. by rewrite Hb.
  - cbn [all_chars] in Ha. apply andb_prop in Ha as [Hx Ha].
    rewrite append_cons. cbn [span_class]. by rewrite Hx, IH.
Qed.

Lemma span_class_split p s :
  s = (span_class p s).1 +:+ (span_class p s).2 ∧
  match (span_class p s).2 with EmptyString => True | String c _ => p c = false end.
Proof.
  induction s as [|x s [IH1 IH2]]; [done|]. cbn [span_class].
  destruct (p x) eqn:Hx.
  - destruct (span_class p s) as [a b]. cbn [fst snd] in *.
    rewrite append_cons. by rewrite <-IH1.
  - done.
Qed.

(** The shape of a macro name. *)
Lemma is_macro_name_shape name :
  is_macro_name name = true →
  ∃ w1 w2, name = w1 +:+ String "." w2 ∧ w1 ≠ "" ∧ w2 ≠ "" ∧
           all_chars QStr.is_word w1 = true ∧ all_chars QStr.is_word w2 = true.
Proof.
  unfold is_macro_name. intros H.
  pose proof (span_class_split QStr.is_word name) as [Hs _].
  pose proof (span_class_all QStr.is_word name) as Hw.
  destruct (span_class QStr.is_word name) as [w1 r]. cbn [fst snd] in *.
  destruct r as [|c w2]; [done|].
  destruct (Ascii.eqb_spec c ".") as [->|Hc].
  - apply andb_prop in H as [[H1 H2]%andb_prop H3].
    exists w1, w2. split; [done|]. split; [by destruct w1|]. split; [by destruct w2|]. done.
  - exfalso. destruct c as [[] [] [] [] [] [] [] []]; done.
Qed.

Lemma word_is_not_dollar c : QStr.is_word c = true → Ascii.eqb c "$" = false.
Proof. destruct (Ascii.eqb_spec c "$") as [->|]; [done|done]. Qed.

Lemma all_word_no_dollar w : all_chars QStr.is_word w = true → no_dollar w = true.
Proof.
  unfold no_dollar. induction w as [|c w IH]; [done|]. cbn [all_chars].
  intros [Hc Hw]%andb_prop. by rewrite (word_is_not_dollar c Hc), IH.
Qed.

Lemma macro_name_no_dollar name : is_macro_name name = true → no_dollar name = true.
Proof.
  intros (w1 & w2 & -> & _ & _ & H1 & H2)%is_macro_name_shape.
  unfold no_dollar. rewrite all_chars_append. cbn [all_chars].
  fold (no_dollar w1) (no_dollar w2).
  by rewrite (all_word_no_dollar _ H1), (all_word_no_dollar _ H2).
Qed.

Lemma macro_name_starts_with_word name :
  is_macro_name name = true → ∃ c r, name = String c r ∧ QStr.is_word c = true.
Proof.
  intros (w1 & w2 & -> & Hne & _ & H1 & _)%is_macro_name_shape.
  destruct w1 as [|c w1]; [done|]. cbn [all_chars] in H1.
  apply andb_prop in H1 as [Hc _]. rewrite append_cons. by eexists _, _.
Qed.

(** The macro pattern at a token. *)
Lemma macro_at_token name s :
  is_macro_name name = true →
  macro_at (macro_token name +:+ s) = Some (name, (QStr.size name + 2)%nat).
Proof.
  intros (w1 & w2 & -> & Hn1 & Hn2 & H1 & H2)%is_macro_name_shape.
  unfold macro_token. rewrite !append_cons, append_nil_l, !append_assoc, !append_cons.
  unfold macro_at.
  rewrite (span_class_run QStr.is_word w1) by done.
  destruct w1 as [|a w1]; [done|]. cbn [QStr.isEmpty].
  rewrite (span_class_run QStr.is_word w2) by done.
  destruct w2 as [|b w2]; [done|]. cbn [QStr.isEmpty].
  f_equal. f_equal.
  rewrite size_append. cbn [QStr.size]. lia.
Qed.

Lemma macro_at_plain c r : Ascii.eqb c "$" = false → macro_at (String c r) = None.
Proof.
  intros H. unfold macro_at. destruct (Ascii.eqb_spec c "$") as [|Hc]; [done|].
  destruct c as [[] [] [] [] [] [] [] []]; done.
Qed.

Lemma mid_from_token name s :
  QStr.mid_from (macro_token name +:+ s) (QStr.size name + 2) = s.
Proof.
  replace (QStr.size name + 2)%nat with (QStr.size (macro_token name)).
  - apply mid_from_append.
  - unfold macro_token. rewrite append_cons, append_nil_l. cbn [QStr.size].
    rewrite size_append. cbn [QStr.size]. lia.
Qed.

(** *** The matches of the macro pattern *)

Lemma macro_captures_skip k s :
  macro_captures k s = macro_captures 0 (QStr.mid_from s k).
Proof.
  revert s. induction k as [|k IH]; intros s; [done|].
  destruct s as [|c r]; [done|]. cbn [macro_captures QStr.mid_from]. apply IH.
Qed.

Lemma macro_captures_plain p s :
  no_dollar p = true → macro_captures 0 (p +:+ s) = macro_captures 0 s.
Proof.
  unfold no_dollar. induction p as [|c p IH]; [done|]. cbn [all_chars].
  intros [Hc Hp]%andb_prop. rewrite append_cons. cbn [macro_captures].
  rewrite macro_at_plain by (by destruct (Ascii.eqb c "$")). by apply IH.
Qed.

Lemma token_cons name s : macro_token name +:+ s = String "$" (name +:+ String "$" s).
Proof. unfold macro_token. by rewrite append_cons, append_nil_l, append_cons, append_assoc. Qed.

Lemma macro_captures_token name s :
  is_macro_name name = true →
  macro_captures 0 (macro_token name +:+ s) = name :: macro_captures 0 s.
Proof.
  intros Hn. pose proof (macro_at_token name s Hn) as Hat.
  pose proof (mid_from_token name s) as Hmid.
  rewrite token_cons in *. cbn [macro_captures]. rewrite Hat. f_equal.
  rewrite macro_captures_skip.
  replace (QStr.size name + 2)%nat with (S (QStr.size name + 2 - 1)) in Hmid by lia.
  by rewrite <-Hmid at 2.
Qed.

Lemma macro_captures_render l :
  well_separated l = true →
  macro_captures 0 (render macro_token l) = l.*1.
Proof.
  induction l as [|[name plain] rest IH]; [done|]. cbn [well_separated render fmap list_fmap].
  intros [[[Hn Hp]%andb_prop _]%andb_prop Hrest]%andb_prop.
  rewrite macro_captures_token, macro_captures_plain by done. cbn. f_equal. by apply IH.
Qed.

(** *** Replacing every occurrence where it stands *)

Lemma expand_every_occurrence_skip k s resolver :
  expand_every_occurrence k s resolver =
  expand_every_occurrence 0 (QStr.mid_from s k) resolver.
Proof.
  revert s. induction k as [|k IH]; intros s; [done|].
  destruct s as [|c r]; [done|]. cbn [expand_every_occurrence QStr.mid_from]. apply IH.
Qed.

Lemma expand_every_occurrence_plain p s resolver :
  no_dollar p = true →
  expand_every_occurrence 0 (p +:+ s) resolver = p +:+ expand_every_occurrence 0 s resolver.
Proof.
  unfold no_dollar. induction p as [|c p IH]; [done|]. cbn [all_chars].
  intros [Hc Hp]%andb_prop. rewrite !append_cons. cbn [expand_every_occurrence].
  rewrite macro_at_plain by (by destruct (Ascii.eqb c "$")). f_equal. by apply IH.
Qed.

Lemma expand_every_occurrence_token name s resolver :
  is_macro_name name = true →
  expand_every_occurrence 0 (macro_token name +:+ s) resolver =
  null_or (resolver name) +:+ expand_every_occurrence 0 s resolver.
Proof.
  intros Hn. pose proof (macro_at_token name s Hn) as Hat.
  pose proof (mid_from_token name s) as Hmid.
  rewrite token_cons in *. cbn [expand_every_occurrence]. rewrite Hat.
  unfold null_or. f_equal. rewrite expand_every_occurrence_skip.
  replace (QStr.size name + 2)%nat with (S (QStr.size name + 2 - 1)) in Hmid by lia.
  by rewrite <-Hmid at 2.
Qed.

Lemma expand_every_occurrence_render l resolver :
  well_separated l = true →
  expand_every_occurrence 0 (render macro_token l) resolver =
  render (λ name, null_or (resolver name)) l.
Proof.
  induction l as [|[name plain] rest IH]; [done|]. cbn [well_separated render].
  intros [[[Hn Hp]%andb_prop _]%andb_prop Hrest]%andb_prop.
  rewrite expand_every_occurrence_token, expand_every_occurrence_plain by done.
  by rewrite IH.
Qed.

(** *** One round of replacement *)

Lemma macro_token_not_empty name : macro_token name ≠ "".
Proof. by rewrite <-(append_nil_r (macro_token name)), token_cons. Qed.

Lemma startsWith_token_plain c r name :
  Ascii.eqb c "$" = false → QStr.startsWith (String c r) (macro_token name) = false.
Proof.
  intros Hc. rewrite <-(append_nil_r (macro_token name)), token_cons.
  cbn [QStr.startsWith]. by rewrite Ascii.eqb_sym, Hc.
Qed.

Lemma replace_plain p s name after :
  no_dollar p = true →
  QStr.replace (p +:+ s) (macro_token name) after =
  p +:+ QStr.replace s (macro_token name) after.
Proof.
  unfold no_dollar. induction p as [|c p IH]; [done|]. cbn [all_chars].
  intros [Hc Hp]%andb_prop. rewrite !append_cons.
  rewrite replace_unfold by apply macro_token_not_empty.
  rewrite startsWith_token_plain by (by destruct (Ascii.eqb c "$")).
  f_equal. by apply IH.
Qed.

Lemma replace_token_hit name s after :
  QStr.replace (macro_token name +:+ s) (macro_token name) after =
  after +:+ QStr.replace s (macro_token name) after.
Proof.
  pose proof (replace_first_occurrence "" (macro_token name) s after
                (macro_token_not_empty name)) as H.
  rewrite !append_nil_l in H. apply H. cbn [QStr.size]. lia.
Qed.

(** Two names, each followed by a [$]: the one starts with the other only
    when they are the same name. *)
Lemma startsWith_names n m s :
  no_dollar n = true → no_dollar m = true → n ≠ m →
  QStr.startsWith (n +:+ String "$" s) (m +:+ "$") = false.
Proof.
  unfold no_dollar. revert m. induction n as [|c n IH]; intros [|d m] Hn Hm Hne; try done.
  - rewrite append_nil_l, append_cons. cbn [QStr.startsWith all_chars] in *.
    apply andb_prop in Hm as [Hd _]. by destruct (Ascii.eqb d "$").
  - rewrite append_cons, append_nil_l. cbn [QStr.startsWith all_chars] in *.
    apply andb_prop in Hn as [Hc _]. rewrite Ascii.eqb_sym.
    by destruct (Ascii.eqb c "$").
  - rewrite !append_cons. cbn [QStr.startsWith all_chars] in *.
    apply andb_prop in Hn as [_ Hn]. apply andb_prop in Hm as [_ Hm].
    destruct (Ascii.eqb_spec d c) as [->|]; [|done].
    apply IH; [done|done|congruence].
Qed.

Lemma stays_closed_outside_word p s m :
  is_macro_name m = true → starts_outside_word p = true → stays_closed (p +:+ s) m.
Proof.
  intros (d & r & -> & Hd)%macro_name_starts_with_word Hp.
  destruct p as [|c p]; [done|]. unfold stays_closed.
  rewrite !append_cons. cbn [QStr.startsWith starts_outside_word] in *.
  destruct (Ascii.eqb_spec d c) as [->|]; [|done]. by rewrite Hd in Hp.
Qed.

Lemma stays_closed_no_dollar p m : no_dollar p = true → stays_closed p m.
Proof.
  unfold stays_closed, no_dollar. revert p. induction m as [|d m IH]; intros [|c p] Hp; try done.
  - rewrite append_nil_l. cbn [QStr.startsWith all_chars] in *.
    apply andb_prop in Hp as [Hc _]. rewrite Ascii.eqb_sym.
    by destruct (Ascii.eqb c "$").
  - rewrite append_cons. cbn [QStr.startsWith all_chars] in *.
    apply andb_prop in Hp as [_ Hp]. destruct (Ascii.eqb d c); [by apply IH|done].
Qed.

Lemma replace_token_miss n m s after :
  is_macro_name n = true → is_macro_name m = true → n ≠ m →
  stays_closed s m →
  QStr.replace (macro_token n +:+ s) (macro_token m) after =
  macro_token n +:+ QStr.replace s (macro_token m) after.
Proof.
  intros Hn Hm Hne Hs.
  pose proof (macro_name_no_dollar _ Hn) as Hdn.
  pose proof (macro_name_no_dollar _ Hm) as Hdm.
  rewrite !token_cons.
  rewrite replace_unfold by apply macro_token_not_empty.
  assert (Htok : macro_token m = String "$" (m +:+ "$")).
  { by rewrite <-(append_nil_r (macro_token m)), token_cons. }
  rewrite Htok at 1. cbn [QStr.startsWith]. rewrite Ascii.eqb_refl.
  rewrite startsWith_names by done. f_equal.
  rewrite replace_plain by done. f_equal.
  rewrite replace_unfold by apply macro_token_not_empty.
  rewrite Htok at 1. cbn [QStr.startsWith]. rewrite Ascii.eqb_refl.
  unfold stays_closed in Hs. by rewrite Hs.
Qed.

Lemma render_no_dollar show l :
  (∀ name, no_dollar (show name) = true) →
  Forall (λ x, no_dollar x.2 = true) l →
  no_dollar (render show l) = true.
Proof.
  intros Hshow. induction 1 as [|[n p] rest Hp _ IH]; [done|]. cbn [render].
  unfold no_dollar in *. rewrite !all_chars_append. cbn [snd] in Hp.
  by rewrite Hshow, Hp, IH.
Qed.

Lemma null_or_no_dollar v : no_dollar v = true → no_dollar (null_or v) = true.
Proof. unfold null_or. by destruct v. Qed.

Lemma show_after_in envCallback replaced name :
  name ∈ replaced → show_after envCallback replaced name = null_or (envCallback name).
Proof. intros H. unfold show_after. by rewrite bool_decide_eq_true_2. Qed.

Lemma show_after_out envCallback replaced name :
  name ∉ replaced → show_after envCallback replaced name = macro_token name.
Proof. intros H. unfold show_after. by rewrite bool_decide_eq_false_2. Qed.

(** The round of macro [m] on a text whose tokens stand apart: the tokens
    of [m] are replaced, everything else stays. *)
Lemma replace_render envCallback m replaced l :
  (∀ name, no_dollar (envCallback name) = true) →
  is_macro_name m = true →
  well_separated l = true →
  QStr.replace (render (show_after envCallback replaced) l) (macro_token m)
               (null_or (envCallback m)) =
  render (show_after envCallback (m :: replaced)) l.
Proof.
  intros Hval Hm. induction l as [|[n p] rest IH]; [done|].
  cbn [well_separated render].
  intros [[[Hn Hp]%andb_prop Hsep]%andb_prop Hrest]%andb_prop.
  specialize (IH Hrest).
  destruct (decide (n ∈ replaced)) as [Hin|Hout].
  - rewrite !(show_after_in _ _ n) by (done || by right).
    rewrite !replace_plain by (done || by apply null_or_no_dollar). by rewrite IH.
  - rewrite (show_after_out _ _ n Hout).
    destruct (decide (n = m)) as [->|Hne].
    + rewrite (show_after_in _ (m :: replaced) m) by (by left).
      rewrite replace_token_hit, replace_plain by done. by rewrite IH.
    + rewrite (show_after_out _ (m :: replaced) n)
        by (rewrite elem_of_cons; intros [?|?]; done).
      rewrite replace_token_miss, replace_plain, IH; try done.
      destruct rest as [|x rest'].
      * cbn [render]. rewrite append_nil_r. by apply stays_closed_no_dollar.
      * by apply stays_closed_outside_word.
Qed.

Lemma render_ext (f g : string → string) l :
  (∀ name, name ∈ l.*1 → f name = g name) → render f l = render g l.
Proof.
  induction l as [|[n p] rest IH]; intros H; [done|]. cbn [render].
  rewrite (H n) by (by left). rewrite IH; [done|].
  intros name Hin. apply H. by right.
Qed.

Lemma well_separated_names l :
  well_separated l = true → ∀ name, name ∈ l.*1 → is_macro_name name = true.
Proof.
  induction l as [|[n p] rest IH]; intros H name Hin; [by apply elem_of_nil in Hin|].
  cbn [well_separated] in H.
  apply andb_prop in H as [[[Hn _]%andb_prop _]%andb_prop Hrest].
  apply elem_of_cons in Hin as [->|Hin]; [done|by apply IH].
Qed.

(** The rounds of several macros, one after another. *)
Lemma rounds_render envCallback p0 l macros :
  (∀ name, no_dollar (envCallback name) = true) →
  no_dollar p0 = true →
  well_separated l = true →
  Forall (λ m, is_macro_name m = true) macros →
  ∀ replaced,
    fold_left (λ text macro, substitute text macro (envCallback macro)) macros
              (p0 +:+ render (show_after envCallback replaced) l) =
    p0 +:+ render (show_after envCallback (rev macros ++ replaced)) l.
Proof.
  intros Hval Hp0 Hsep. induction 1 as [|m rest Hm _ IH]; intros replaced; [done|].
  cbn [fold_left rev]. unfold substitute at 2.
  change ("$" +:+ m +:+ "$") with (macro_token m).
  change (if QStr.isEmpty (envCallback m) then "NULL" else envCallback m)
    with (null_or (envCallback m)).
  rewrite replace_plain, replace_render by done.
  by rewrite IH, <-app_assoc.
Qed.

(** On a text whose macro tokens stand apart, with values free of [$],
    the macro pass replaces every token where it stands. *)
Lemma separate_tokens_are_all_replaced envCallback p0 l w :
  no_dollar p0 = true →
  well_separated l = true →
  (∀ name, no_dollar (envCallback name) = true) →
  collect_macros (p0 +:+ render macro_token l) = fold_left add_macro l.*1 [] ∧
  (expand_macros (p0 +:+ render macro_token l) envCallback w).1 =
    p0 +:+ render (λ name, null_or (envCallback name)) l ∧
  expand_every_occurrence 0 (p0 +:+ render macro_token l) envCallback =
    p0 +:+ render (λ name, null_or (envCallback name)) l.
Proof.
  intros Hp0 Hsep Hval.
  assert (Hcap : macro_captures 0 (p0 +:+ render macro_token l) = l.*1).
  { by rewrite macro_captures_plain, macro_captures_render. }
  assert (Hcol : collect_macros (p0 +:+ render macro_token l) = fold_left add_macro l.*1 []).
  { unfold collect_macros. by rewrite Hcap. }
  destruct (add_macros_spec l.*1 [] (NoDup_nil_2)) as (_ & Hmem & _).
  split; [done|]. split.
  - unfold expand_macros. rewrite replace_macros_text, Hcol.
    rewrite (render_ext macro_token (show_after envCallback []))
      by (intros name _; symmetry; apply show_after_out, not_elem_of_nil).
    rewrite rounds_render; try done.
    + f_equal. apply render_ext. intros name Hin. apply show_after_in.
      rewrite app_nil_r, elem_of_rev. apply Hmem. by right.
    + apply Forall_forall. intros m Hin. apply Hmem in Hin as [[]%elem_of_nil|Hin].
      by apply (well_separated_names l).
  - by rewrite expand_every_occurrence_plain, expand_every_occurrence_render.
Qed.

(** C4, as amended.  Macro expansion collects the distinct macro names
    matched in the text, in the order of their first occurrence; it calls
    the resolver exactly once for each of them, in that order; and it
    rewrites the text one macro after another in that order: each round
    replaces, in the text as the earlier rounds left it, every occurrence
    of the token of its macro found from left to right without overlap
    (a text without occurrence is unchanged; the text up to the first
    occurrence is kept, the replacement follows, and what follows the
    occurrence is rewritten in the same way), by [NULL] when the resolved
    value is empty and by the value otherwise.  When the text holds no
    [$] outside its macro tokens, every token but the last is followed by
    a character that is not a word character, and the resolved values
    hold no [$], every occurrence of every macro token is replaced where
    it stands.  For the text of the specification, with the resolver
    returning the empty string, the resolver is called once and [NULL]
    stands in both places. *)
Theorem macros_are_replaced_one_after_another query envCallback w :
  NoDup (collect_macros query)
  ∧ (∀ name, name ∈ collect_macros query ↔ name ∈ macro_captures 0 query)
  ∧ (∀ l1 l2, macro_captures 0 query = l1 ++ l2 →
              fold_left add_macro l1 [] `prefix_of` collect_macros query)
  ∧ events (expand_macros query envCallback w).2 =
      events w ++ (EvCallback <$> collect_macros query)
  ∧ (expand_macros query envCallback w).1 =
      fold_left
        (λ text macro,
           QStr.replace text (macro_token macro) (null_or (envCallback macro)))
        (collect_macros query) query
  ∧ (∀ text token after,
       token ≠ "" →
       (∀ i, QStr.startsWith (QStr.mid_from text i) token = false) →
       QStr.replace text token after = text)
  ∧ (∀ pre token post after,
       token ≠ "" →
       (∀ i, (i < QStr.size pre)%nat →
             QStr.startsWith (QStr.mid_from (pre +:+ token +:+ post) i) token = false) →
       QStr.replace (pre +:+ token +:+ post) token after =
       pre +:+ after +:+ QStr.replace post token after)
  ∧ (∀ p0 l,
       query = p0 +:+ render macro_token l →
       no_dollar p0 = true →
       well_separated l = true →
       (∀ name, no_dollar (envCallback name) = true) →
       (expand_macros query envCallback w).1 =
         p0 +:+ render (λ name, null_or (envCallback name)) l ∧
       (expand_macros query envCallback w).1 =
         expand_every_occurrence 0 query envCallback)
  ∧ expand_macros "select * from t where x=$a.b$ and y=$a.b$" (λ _, "") w =
      ("select * from t where x=NULL and y=NULL", log (EvCallback "a.b") w).
Proof.
  destruct (add_macros_spec (macro_captures 0 query) [] (NoDup_nil_2)) as (H1 & H2 & _).
  split; [exact H1|]. split.
  { intros name. unfold collect_macros. rewrite H2, elem_of_nil. tauto. }
  split.
  { intros l1 l2 E. unfold collect_macros. rewrite E, fold_left_app.
    apply add_macros_spec.
    by destruct (add_macros_spec l1 [] (NoDup_nil_2)) as (? & _). }
  split; [apply replace_macros_events|].
  split; [apply replace_macros_text|].
  split; [intros; by apply replace_no_occurrence|].
  split; [intros; by apply replace_first_occurrence|].
  split; [|done].
  intros p0 l -> Hp0 Hsep Hval.
  destruct (separate_tokens_are_all_replaced envCallback p0 l w Hp0 Hsep Hval)
    as (_ & Hrun & Hall).
  by rewrite Hrun, Hall.
Qed.

(** The text of the specification is one whose tokens stand apart. *)
Example specification_text_is_well_separated :
  "select * from t where x=$a.b$ and y=$a.b$" =
    "select * from t where x=" +:+ render macro_token [("a.b", " and y="); ("a.b", "")] ∧
  no_dollar "select * from t where x=" = true ∧
  well_separated [("a.b", " and y="); ("a.b", "")] = true.
Proof. by vm_compute. Qed.

(** C4 as stated fails.  In this text the macros found are [c.d] and
    [a.b], in that order, and the resolver is called for both; replacing
    the token of [c.d] first takes away the [$] that closes the token of
    [a.b], which is then never replaced, though the value of [a.b] is
    empty and [NULL] is due where it stands. *)
Lemma overlapping_macro_is_not_replaced :
  collect_macros overlapping_macros = ["c.d"; "a.b"] ∧
  Demo.resolver "a.b" = "" ∧
  expand_macros overlapping_macros Demo.resolver Demo.world =
    ("42 $a.b42", log (EvCallback "a.b") (log (EvCallback "c.d") Demo.world)) ∧
  expand_every_occurrence 0 overlapping_macros Demo.resolver = "42 NULLc.d$".
Proof. by vm_compute. Qed.

(** ** Further properties of [versionSpecificPart] *)

Lemma marker_matches_none s :
  ∀ pos, (∀ j, marker_at (QStr.mid_from s j) = None) → marker_matches pos s = [].
Proof.
  induction s as [|c r IH]; intros pos H.
  - pose proof (H 0%nat) as H0. cbn [QStr.mid_from] in H0.
    cbn [marker_matches]. by rewrite H0.
  - rewrite marker_matches_cons. pose proof (H 0%nat) as H0. cbn [QStr.mid_from] in H0.
    rewrite H0. cbn [app]. apply IH. intros j. apply (H (S j)).
Qed.

(** X1.  [versionSpecificPart] returns a script in which no version marker
    starts, at any position, unchanged, whatever the version asked for
    (the [if (!i.hasNext()) return script] of the source). *)
Theorem script_without_markers_is_returned_whole script version :
  (∀ p, ¬ marker_starts_at script p) →
  versionSpecificPart script version = script.
Proof.
  intros H. unfold versionSpecificPart. rewrite marker_matches_none; [done|].
  intros j. specialize (H j). unfold marker_starts_at in H.
  destruct (marker_at (QStr.mid_from script j)); [|done]. destruct H. by eexists.
Qed.

Lemma script_without_markers_witness :
  (∀ p, ¬ marker_starts_at "select 1 /* V9 */" p) ∧
  versionSpecificPart "select 1 /* V9 */" 7 = "select 1 /* V9 */".
Proof.
  assert (H : ∀ p, ¬ marker_starts_at "select 1 /* V9 */" p).
  { intros p [x Hx].
    rewrite (marker_matches_nil "select 1 /* V9 */" 0 p) in Hx; [done|].
    reflexivity. }
  split; [exact H|].
  exact (script_without_markers_is_returned_whole "select 1 /* V9 */" 7 H).
Defined.

Lemma left_all s : QStr.left s (QStr.size s) = s.
Proof. induction s as [|c r IH]; [done|]. cbn. by rewrite IH. Qed.

Lemma mid_whole s : QStr.mid s 0 (QStr.size s) = s.
Proof. unfold QStr.mid. cbn [QStr.mid_from]. apply left_all. Qed.

Lemma mid_from_size s p : QStr.size (QStr.mid_from s p) = (QStr.size s - p)%nat.
Proof.
  revert s. induction p as [|p IH]; intros s; cbn [QStr.mid_from]; [lia|].
  destruct s as [|c r]; [done|]. cbn [QStr.size]. rewrite IH. lia.
Qed.

Lemma mid_to_end s p : QStr.mid s p (QStr.size s - p) = QStr.mid_from s p.
Proof. unfold QStr.mid. rewrite <-mid_from_size. apply left_all. Qed.

Lemma search_down_found d version :
  search_down d version = "" ∨
  ∃ k, (k, search_down d version) ∈ d ∧ k ≤ version.
Proof.
  induction d as [|[k v] r IH]; [by left|]. cbn [search_down].
  destruct (Z.leb_spec k version) as [Hle|Hgt].
  - right. exists k. split; [by left|done].
  - destruct IH as [IH|(k' & Hin & Hk')]; [by left|].
    right. exists k'. split; [by right|done].
Qed.

(** The part selected, when the script has markers: nothing, or the text
    of a segment whose key is not above the version. *)
Lemma versionSpecificPart_found script version :
  segments script ≠ [] →
  versionSpecificPart script version = "" ∨
  ∃ k, (k, versionSpecificPart script version) ∈ segments script ∧ k ≤ version.
Proof.
  intros Hne. rewrite versionSpecificPart_segments by done.
  destruct (search_down_found (rev (fold_left store (segments script) [])) version)
    as [H|(k & Hin & Hk)]; [by left|].
  right. exists k. split; [|done].
  rewrite elem_of_rev in Hin.
  destruct (fold_store_spec (segments script) []) as [_ Hmem]; [constructor|].
  apply Hmem in Hin as [(l1 & l2 & E & _)|[_ []%elem_of_nil]].
  rewrite E at 2. apply elem_of_app. right. by left.
Qed.

(** X2.  What [versionSpecificPart] returns is always a piece
    [script.mid(p, n)] of the script it was given; when the script has
    markers, the result is either the empty text or it begins at a position
    where a marker starts, and so begins with the comment opener. *)
Theorem selected_part_is_a_part_of_the_script script version :
  ∃ p n : nat,
    versionSpecificPart script version = QStr.mid script p n ∧
    (segments script ≠ [] →
     versionSpecificPart script version = "" ∨
     (marker_starts_at script p ∧
      QStr.startsWith (versionSpecificPart script version) "/*" = true)).
Proof.
  destruct (segments script) as [|seg segs] eqn:Hsegs.
  - exists 0%nat, (QStr.size script). split; [|done].
    unfold versionSpecificPart. unfold segments in Hsegs.
    apply segments_of_nil in Hsegs. rewrite Hsegs. by rewrite mid_whole.
  - assert (Hne : segments script ≠ []) by (by rewrite Hsegs).
    destruct (versionSpecificPart_found script version Hne) as [E|(k & Hin & Hk)].
    + exists 0%nat, 0%nat. rewrite E. split; [done|]. by left.
    + destruct (segments_of_spans script _ 0%nat script eq_refl eq_refl _ _ Hin)
        as (p & ds & _ & Hat & _ & Hspan).
      assert (Hm : marker_starts_at script p) by (by eexists).
      pose proof (span_starts_with_marker _ _ _ Hm Hspan) as Hstart.
      destruct Hspan as [(q & Hpq & _ & _ & E)|[_ E]].
      * exists p, (q - p)%nat. split; [done|]. intros _. by right.
      * exists p, (QStr.size script - p)%nat. rewrite mid_to_end.
        split; [done|]. intros _. by right.
Qed.

Lemma span_class_extend p r z :
  (span_class p r).2 ≠ "" →
  span_class p (r +:+ z) = ((span_class p r).1, (span_class p r).2 +:+ z).
Proof.
  induction r as [|c r IH]; [done|]. rewrite append_cons. cbn [span_class].
  destruct (p c) eqn:Hc.
  - destruct (span_class p r) as [a b]. cbn [fst snd] in *. intros Hb.
    by rewrite IH.
  - intros _. cbn [fst snd]. by rewrite append_cons.
Qed.

(** A marker found in a text is found in every text that extends it. *)
Lemma marker_at_extend y z ds :
  marker_at y = Some ds → marker_at (y +:+ z) = Some ds.
Proof.
  intros H. destruct (marker_at_head _ _ H) as [r ->].
  rewrite !append_cons. unfold marker_at in *.
  destruct (span_class QStr.is_space r) as [a b] eqn:E1. cbn [snd] in H.
  rewrite span_class_extend; rewrite E1; cbn [fst snd]; [|by destruct b].
  destruct b as [|c r1]; [done|]. rewrite append_cons.
  destruct (Ascii.eqb_spec c "V") as [->|Hc];
    [|destruct c as [[] [] [] [] [] [] [] []]; done].
  destruct (span_class QStr.is_digit r1) as [d r2] eqn:E2.
  destruct (QStr.isEmpty d) eqn:Hd; [done|].
  destruct r2 as [|c2 r3]; [done|].
  rewrite span_class_extend; rewrite E2; cbn [fst snd]; [|done].
  rewrite Hd, append_cons.
  destruct (Ascii.eqb_spec c2 "+") as [->|Hc2];
    [|destruct c2 as [[] [] [] [] [] [] [] []]; done].
  destruct (span_class QStr.is_space r3) as [a3 b3] eqn:E3. cbn [snd] in H.
  rewrite span_class_extend; rewrite E3; cbn [fst snd]; [|by destruct b3].
  destruct b3 as [|c4 [|c5 r5]];
    [done|by destruct c4 as [[] [] [] [] [] [] [] []]|].
  rewrite !append_cons.
  destruct (Ascii.eqb_spec c4 "*") as [->|Hc4];
    [|destruct c4 as [[] [] [] [] [] [] [] []]; done].
  destruct (Ascii.eqb_spec c5 "/") as [->|Hc5];
    [|destruct c5 as [[] [] [] [] [] [] [] []]; done].
  done.
Qed.

Lemma left_mid_from x n : QStr.left x n +:+ QStr.mid_from x n = x.
Proof.
  revert x. induction n as [|n IH]; intros x; [done|].
  destruct x as [|c x]; [done|]. cbn [QStr.left QStr.mid_from].
  by rewrite append_cons, IH.
Qed.

Lemma marker_at_left x n ds : marker_at (QStr.left x n) = Some ds → marker_at x = Some ds.
Proof.
  intros H. rewrite <-(left_mid_from x n). by apply marker_at_extend.
Qed.

Lemma left_empty n : QStr.left "" n = "".
Proof. by destruct n. Qed.

Lemma mid_from_left x n j :
  QStr.mid_from (QStr.left x n) j = QStr.left (QStr.mid_from x j) (n - j).
Proof.
  revert x n. induction j as [|j IH]; intros x n.
  - by rewrite Nat.sub_0_r.
  - destruct x as [|c x].
    + rewrite left_empty. cbn [QStr.mid_from]. by rewrite left_empty.
    + destruct n as [|n]; cbn [QStr.left QStr.mid_from Nat.sub].
      * by destruct (QStr.mid_from x j).
      * apply IH.
Qed.

(** In the text of a segment no marker starts after the first character. *)
Lemma span_has_no_inner_marker script p txt j :
  spans_to_next_marker script p txt → (0 < j)%nat →
  marker_at (QStr.mid_from txt j) = None.
Proof.
  intros Hspan Hj.
  destruct (marker_at (QStr.mid_from txt j)) as [d|] eqn:E; [|done]. exfalso.
  destruct Hspan as [(q & Hpq & _ & Hno & ->)|[Hno ->]].
  - unfold QStr.mid in E. rewrite mid_from_left in E.
    destruct (decide (j < q - p)%nat) as [Hlt|Hge].
    + apply marker_at_left in E. rewrite <-mid_from_add in E.
      apply (Hno (p + j)%nat); [lia|by eexists].
    + replace (q - p - j)%nat with 0%nat in E by lia.
      by destruct (QStr.mid_from (QStr.mid_from script p) j).
  - rewrite <-mid_from_add in E. apply (Hno (p + j)%nat); [lia|by eexists].
Qed.

(** X3.  [versionSpecificPart] is idempotent: selecting, for the same
    version, in a text it has already selected gives that text again. *)
Theorem versionSpecificPart_idempotent script version :
  versionSpecificPart (versionSpecificPart script version) version =
  versionSpecificPart script version.
Proof.
  destruct (segments script) as [|seg segs] eqn:Hsegs.
  - unfold segments in Hsegs. apply segments_of_nil in Hsegs.
    assert (E : versionSpecificPart script version = script).
    { unfold versionSpecificPart. by rewrite Hsegs. }
    by rewrite !E.
  - assert (Hne : segments script ≠ []) by (by rewrite Hsegs).
    destruct (versionSpecificPart_found script version Hne) as [E|(k & Hin & Hk)].
    + by rewrite E.
    + destruct (segments_of_spans script _ 0%nat script eq_refl eq_refl _ _ Hin)
        as (p & ds & _ & Hat & -> & Hspan).
      set (txt := versionSpecificPart script version) in *.
      assert (Hm : marker_starts_at script p) by (by eexists).
      pose proof (span_starts_with_marker _ _ _ Hm Hspan) as Hstart.
      destruct txt as [|c r] eqn:Etxt; [done|].
      assert (Hrest : marker_matches 1 r = []).
      { apply marker_matches_none. intros j.
        apply (span_has_no_inner_marker script p (String c r) (S j) Hspan). lia. }
      unfold versionSpecificPart at 1. rewrite marker_matches_cons, Hrest, app_nil_r.
      destruct (marker_at (String c r)) as [d|] eqn:Ed; [|done].
      assert (d = ds) as ->.
      { destruct Hspan as [(q & _ & _ & _ & E)|[_ E]].
        - rewrite E in Ed. unfold QStr.mid in Ed. apply marker_at_left in Ed. congruence.
        - rewrite E in Ed. congruence. }
      cbn [collect_parts capturedEnd captured1 qmap_set rev app search_down QStr.mid_from].
      by rewrite (proj2 (Z.leb_le _ _) Hk).
Qed.

(** ** Further properties of [dbmsScriptPath] *)

(** X4.  When [dbmsScriptPath] throws, neither cache nor any object has
    changed, and the message is one of the four of the source, each with
    its cause: no connection; the scripts directory of the installation
    does not exist; the connection gives an empty vendor name; the
    directory of the context is not available. *)
Theorem failed_resolve_caches_nothing con context w message w' :
  dbmsScriptPath con context w = (Throw message, w') →
  _dbms_paths w' = _dbms_paths w ∧ _scripts w' = _scripts w ∧ heap w' = heap w ∧
  (message = "db connection unavailable" ∧ con = null_connection ∧ w' = w
   ∨ message = "directory " +:+ scripts_root w +:+ " does not exist" ∧
     dir_exists (fs w) (scripts_root w) = false
   ∨ message = "unable to get dbms name" ∧ dbmsName (connection w) = ""
   ∨ message = "directory " +:+ vendor_path w +:+ contextFolder context
                 +:+ " is not available" ∧
     path_exists (fs w) (vendor_path w +:+ contextFolder context) = false).
Proof.
  destruct con.
  - intros [= <- <-]. repeat split; try done. by left.
  - destruct (_dbms_paths w !! dbmsID (connection w)) as [base|] eqn:Hc.
    { by rewrite (dbmsScriptPath_hit _ _ _ Hc). }
    destruct (dir_exists (fs w) (scripts_root w)) eqn:Hdir;
      [destruct (QStr.isEmpty (dbmsName (connection w))) eqn:Hname|].
    + unfold dbmsScriptPath. run.
      change (_dbms_paths (open_connection w)) with (_dbms_paths w).
      change (dbmsID (connection (open_connection w))) with (dbmsID (connection w)).
      rewrite Hc. cbn beta iota.
      change (scripts_root (open_connection w)) with (scripts_root w).
      cbn [fs log]. change (fs (open_connection w)) with (fs w).
      rewrite Hdir. cbn [negb].
      change (dbmsName (connection (open_connection w))) with (dbmsName (connection w)).
      rewrite Hname. intros [= <- <-]. repeat split; try done.
      right. right. left. split; [done|]. by destruct (dbmsName (connection w)).
    + rewrite (dbmsScriptPath_miss _ _ Hc Hdir Hname). cbn zeta.
      destruct (path_exists _ _) eqn:Hp; [done|]. intros [= <- <-].
      repeat split; try done. by repeat right.
    + unfold dbmsScriptPath. run.
      change (_dbms_paths (open_connection w)) with (_dbms_paths w).
      change (dbmsID (connection (open_connection w))) with (dbmsID (connection w)).
      rewrite Hc. cbn beta iota.
      change (scripts_root (open_connection w)) with (scripts_root w).
      cbn [fs log]. change (fs (open_connection w)) with (fs w).
      rewrite Hdir. cbn [negb]. intros [= <- <-]. repeat split; try done.
      right. by left.
Qed.

Lemma failed_resolve_witness :
  dbmsScriptPath the_connection Root Demo.world =
    (Throw "directory /opt/sqt/scripts/postgresql/ is not available",
     (dbmsScriptPath the_connection Root Demo.world).2) ∧
  _dbms_paths (dbmsScriptPath the_connection Root Demo.world).2 = _dbms_paths Demo.world.
Proof.
  assert (H : dbmsScriptPath the_connection Root Demo.world =
    (Throw "directory /opt/sqt/scripts/postgresql/ is not available",
     (dbmsScriptPath the_connection Root Demo.world).2)) by reflexivity.
  split; [exact H|].
  exact (proj1 (failed_resolve_caches_nothing the_connection Root Demo.world _ _ H)).
Defined.

(** X5.  A successful [dbmsScriptPath] returns a vendor directory followed
    by the folder of the context, and leaves that vendor directory cached
    for the connection; from then on every context is answered from the
    cache by the same directory followed by its own folder, without a test
    that this path exists. *)
Theorem cached_directory_serves_every_context context w path w1 :
  dbmsScriptPath the_connection context w = (Return path, w1) →
  ∃ base,
    path = base +:+ contextFolder context ∧
    (_dbms_paths w1 = _dbms_paths w ∨
     _dbms_paths w1 = <[dbmsID (connection w) := base]> (_dbms_paths w)) ∧
    ∀ other,
      dbmsScriptPath the_connection other w1 =
      (Return (base +:+ contextFolder other), open_connection w1).
Proof.
  intros H. apply dbmsScriptPath_return in H as [(base & Hc & -> & ->)|(Hc & Hp & ->)].
  - exists base. split; [done|]. split; [by left|].
    intros other. by apply dbmsScriptPath_hit.
  - exists (vendor_path w). split; [done|]. split; [by right|].
    intros other. apply dbmsScriptPath_hit.
    cbn [set_dbms_paths _dbms_paths]. apply lookup_insert_eq.
Qed.

Lemma cached_directory_witness :
  dbmsScriptPath the_connection Tree Demo.world =
    (Return Demo.tree, (dbmsScriptPath the_connection Tree Demo.world).2) ∧
  path_exists (fs Demo.world) "/opt/sqt/scripts/postgresql/preview/" = false ∧
  ∃ base,
    Demo.tree = base +:+ contextFolder Tree ∧
    (_dbms_paths (dbmsScriptPath the_connection Tree Demo.world).2 = _dbms_paths Demo.world ∨
     _dbms_paths (dbmsScriptPath the_connection Tree Demo.world).2 =
       <[dbmsID (connection Demo.world) := base]> (_dbms_paths Demo.world)) ∧
    ∀ other,
      dbmsScriptPath the_connection other (dbmsScriptPath the_connection Tree Demo.world).2 =
      (Return (base +:+ contextFolder other),
       open_connection (dbmsScriptPath the_connection Tree Demo.world).2).
Proof.
  assert (H : dbmsScriptPath the_connection Tree Demo.world =
    (Return Demo.tree, (dbmsScriptPath the_connection Tree Demo.world).2))
    by reflexivity.
  split; [exact H|]. split; [reflexivity|].
  exact (cached_directory_serves_every_context Tree Demo.world Demo.tree _ H).
Defined.

(** ** Further properties of [refresh] and [getScript] *)

Lemma loaded_from_lookup context c files objectType :
  ∀ b,
    loaded_from context c files b !! objectType =
    match script_file_for objectType files with
    | Some f => Some (script_of context c f)
    | None => b !! objectType
    end.
Proof.
  unfold loaded_from. induction files as [|f rest IH]; intros b; [done|].
  cbn [fold_left script_file_for]. rewrite IH.
  destruct (script_file_for objectType rest) as [g|]; [done|].
  unfold load_one. destruct (is_script_file f); cbn [andb]; [|done].
  case_bool_decide as Hn.
  - by rewrite <-Hn, lookup_insert_eq.
  - by rewrite lookup_insert_ne.
Qed.

Lemma bunch_at_other path other b w :
  other ≠ path → bunch_at other (set_scripts (insert path b) w) = bunch_at other w.
Proof.
  intros H. unfold bunch_at. cbn [set_scripts _scripts]. by rewrite lookup_insert_ne.
Qed.

Lemma bunch_at_touch_other path other w :
  bunch_at other (touch_bunch path w) = bunch_at other w.
Proof.
  destruct (decide (other = path)) as [->|H]; [apply bunch_at_touch|].
  unfold bunch_at, touch_bunch. cbn [set_scripts _scripts]. by rewrite lookup_insert_ne.
Qed.

(** The loop of [refresh] writes to one bunch only. *)
Lemma load_files_other files path context other todo :
  other ≠ path →
  ∀ w r w', load_files files path context todo w = (r, w') →
            bunch_at other w' = bunch_at other w ∧ _dbms_paths w' = _dbms_paths w.
Proof.
  intros Hne. induction todo as [|f rest IH]; intros w r w' H.
  - by injection H as <- <-.
  - rewrite load_files_cons in H. destruct (is_script_file f); [|by eapply IH].
    destruct (readable f).
    + apply IH in H as [-> ->]. split; [|done]. by rewrite bunch_at_other.
    + by injection H as <- <-.
Qed.

Lemma load_files_same_bunch_paths files path context todo :
  ∀ w r w', load_files files path context todo w = (r, w') →
            _dbms_paths w' = _dbms_paths w.
Proof.
  induction todo as [|f rest IH]; intros w r w' H.
  - by injection H as <- <-.
  - rewrite load_files_cons in H. destruct (is_script_file f); [|by eapply IH].
    destruct (readable f).
    + by apply IH in H as ->.
    + by injection H as <- <-.
Qed.

(** X6.  When every script file of the directory can be opened, [refresh]
    succeeds; afterwards the bunch of the directory holds, under each
    name, the script of the last listed script file with that base name
    and nothing else, the bunches of the other directories are unchanged,
    and the cache of vendor directories is the one the path lookup left. *)
Theorem refresh_loads_the_directory context w path w1 :
  dbmsScriptPath the_connection context w = (Return path, w1) →
  (∀ f, f ∈ entryInfoList (fs w) path → is_script_file f = true → readable f = true) →
  ∃ w',
    refresh the_connection context w = (Return tt, w') ∧
    (∀ objectType,
       bunch_at path w' !! objectType =
       script_of context (connection w) <$>
         script_file_for objectType (entryInfoList (fs w) path)) ∧
    (∀ other, other ≠ path → bunch_at other w' = bunch_at other w) ∧
    _dbms_paths w' = _dbms_paths w1.
Proof.
  intros Hpath Hread.
  destruct (Quiet_dbmsScriptPath _ _ _ _ _ Hpath)
    as (_ & Hfs & _ & _ & (_ & _ & _ & Hv & _ & _) & _).
  destruct (dbmsScriptPath_caches _ _ _ _ Hpath) as (Hsc & _).
  rewrite (refresh_resolved _ _ _ _ Hpath), Hfs.
  edestruct (load_files_readable (entryInfoList (fs w) path) path context
               (entryInfoList (fs w) path)) as (w' & Hrun & Hb); [exact Hread|].
  exists w'. split; [exact Hrun|]. split; [|split].
  - intros objectType. rewrite Hb, loaded_from_lookup.
    change (bunch_at path (log _ ?v)) with (bunch_at path v). rewrite bunch_at_insert.
    cbn [log set_scripts touch_bunch connection].
    destruct (script_file_for objectType _) as [f|]; [|done].
    cbn. f_equal. unfold script_of. by rewrite Hv.
  - intros other Hne.
    destruct (load_files_other _ _ _ other _ Hne _ _ _ Hrun) as [-> _].
    change (bunch_at other (log _ ?v)) with (bunch_at other v).
    rewrite bunch_at_other, bunch_at_touch_other by done.
    unfold bunch_at. by rewrite Hsc.
  - by rewrite (load_files_same_bunch_paths _ _ _ _ _ _ _ Hrun).
Qed.

Lemma refresh_loads_witness :
  dbmsScriptPath the_connection Tree Demo.world =
    (Return Demo.tree, (dbmsScriptPath the_connection Tree Demo.world).2) ∧
  (∀ f, f ∈ entryInfoList (fs Demo.world) Demo.tree →
        is_script_file f = true → readable f = true) ∧
  ∃ w',
    refresh the_connection Tree Demo.world = (Return tt, w') ∧
    (∀ objectType,
       bunch_at Demo.tree w' !! objectType =
       script_of Tree (connection Demo.world) <$>
         script_file_for objectType (entryInfoList (fs Demo.world) Demo.tree)) ∧
    (∀ other, other ≠ Demo.tree → bunch_at other w' = bunch_at other Demo.world) ∧
    _dbms_paths w' = _dbms_paths (dbmsScriptPath the_connection Tree Demo.world).2.
Proof.
  assert (H1 : dbmsScriptPath the_connection Tree Demo.world =
    (Return Demo.tree, (dbmsScriptPath the_connection Tree Demo.world).2))
    by reflexivity.
  assert (H2 : ∀ f, f ∈ entryInfoList (fs Demo.world) Demo.tree →
        is_script_file f = true → readable f = true).
  { assert (E : entryInfoList (fs Demo.world) Demo.tree =
      [ mkFile "indexes.sql" true "/* V90000+ */ select 1 as html";
        mkFile "tables.sql" true "select * from t where x=$a.b$ and y=$a.b$";
        mkFile "broken.qs" true "returnTable(exec('select 1')); returnScript('x'); fail" ])
      by reflexivity.
    rewrite E. intros f Hf _.
    rewrite !elem_of_cons, elem_of_nil in Hf.
    destruct Hf as [->|[->|[->|[]]]]; reflexivity. }
  split; [exact H1|]. split; [exact H2|].
  exact (refresh_loads_the_directory Tree Demo.world Demo.tree _ H1 H2).
Defined.

Lemma loaded_from_no_script_files context c files b :
  (∀ f, f ∈ files → is_script_file f = false) → loaded_from context c files b = b.
Proof.
  unfold loaded_from. revert b. induction files as [|f rest IH]; intros b H; [done|].
  cbn [fold_left]. rewrite load_one_skip by (apply H; by left).
  apply IH. intros g Hg. apply H. by right.
Qed.

(** [getScript] when the bunch of the directory is empty and its script
    files can be read: the directory is read, and the answer comes from
    the bunch as loaded. *)
Lemma getScript_reads_directory context objectType w path w1 :
  dbmsScriptPath the_connection context w = (Return path, w1) →
  bunch_at path w = ∅ →
  (∀ f, f ∈ entryInfoList (fs w) path → is_script_file f = true → readable f = true) →
  ∃ w' es,
    getScript the_connection context objectType w = (Return (bunch_at path w' !! objectType), w') ∧
    bunch_at path w' = loaded_from context (connection w) (entryInfoList (fs w) path) ∅ ∧
    events w' = events w1 ++ [EvOpen; EvEntryInfoList path] ++ es ∧
    _dbms_paths w' = _dbms_paths w1.
Proof.
  intros Hpath Hempty Hread.
  destruct (dbmsScriptPath_caches _ _ _ _ Hpath) as (Hsc & base & Hbase & Hp).
  destruct (Quiet_dbmsScriptPath _ _ _ _ _ Hpath)
    as (_ & Hfs & _ & _ & (_ & _ & _ & Hv & _ & _) & _).
  assert (Hb1 : bunch_at path w1 = bunch_at path w) by (unfold bunch_at; by rewrite Hsc).
  unfold getScript. run. rewrite Hpath. cbn beta iota.
  rewrite bunch_at_touch, Hb1, Hempty, bool_decide_eq_true_2 by done.
  assert (Hagain : dbmsScriptPath the_connection context (touch_bunch path w1) =
                   (Return path, open_connection (touch_bunch path w1))).
  { rewrite Hp. by apply dbmsScriptPath_hit. }
  rewrite (refresh_resolved _ _ _ _ Hagain).
  change (fs (open_connection (touch_bunch path w1))) with (fs w1). rewrite Hfs.
  edestruct (load_files_readable (entryInfoList (fs w) path) path context
               (entryInfoList (fs w) path)) as (w' & Hrun & Hb); [exact Hread|].
  rewrite Hrun. cbn beta iota.
  destruct (Quiet_load_files _ _ _ _ _ _ _ Hrun) as (_ & _ & _ & _ & _ & es & Hev & _).
  exists w', es. split; [done|]. split; [|split].
  - rewrite Hb. change (bunch_at path (log _ ?v)) with (bunch_at path v).
    rewrite bunch_at_insert. by apply loaded_from_same_version.
  - rewrite Hev. cbn [log events set_scripts touch_bunch open_connection set_connection].
    by rewrite <-!app_assoc.
  - by rewrite (load_files_same_bunch_paths _ _ _ _ _ _ _ Hrun).
Qed.

(** X7.  With nothing loaded for the directory and every script file
    readable, [getScript] returns the script of the last listed script
    file whose base name is the object type, and no script when there is
    no such file. *)
Theorem getScript_finds_the_last_listed_script context objectType w path w1 :
  dbmsScriptPath the_connection context w = (Return path, w1) →
  bunch_at path w = ∅ →
  (∀ f, f ∈ entryInfoList (fs w) path → is_script_file f = true → readable f = true) →
  (getScript the_connection context objectType w).1 =
  Return (script_of context (connection w) <$>
            script_file_for objectType (entryInfoList (fs w) path)).
Proof.
  intros Hpath Hempty Hread.
  destruct (getScript_reads_directory _ objectType _ _ _ Hpath Hempty Hread)
    as (w' & es & -> & Hb & _).
  cbn [fst]. rewrite Hb, loaded_from_lookup.
  by destruct (script_file_for objectType _).
Qed.

(** X8.  When the bunch of the directory is not empty, [getScript] answers
    from it: the result is the entry of the bunch, the directory is not
    listed, no file is read, and the bunch is left as it was. *)
Theorem getScript_serves_a_loaded_bunch context objectType w path w1 :
  dbmsScriptPath the_connection context w = (Return path, w1) →
  bunch_at path w ≠ ∅ →
  getScript the_connection context objectType w =
    (Return (bunch_at path w !! objectType), touch_bunch path w1) ∧
  events (touch_bunch path w1) = events w1 ∧
  bunch_at path (touch_bunch path w1) = bunch_at path w.
Proof.
  intros Hpath Hne.
  destruct (dbmsScriptPath_caches _ _ _ _ Hpath) as (Hsc & _).
  assert (Hb1 : bunch_at path w1 = bunch_at path w) by (unfold bunch_at; by rewrite Hsc).
  split; [|split; [done|by rewrite bunch_at_touch]].
  unfold getScript. run. rewrite Hpath. cbn beta iota.
  rewrite bunch_at_touch, Hb1, bool_decide_eq_false_2 by done.
  by rewrite bunch_at_touch, Hb1.
Qed.

(** X9.  A directory with no script file is never remembered as loaded:
    [getScript] returns no script, leaves the bunch empty and has listed
    the directory, and the next call lists the directory again. *)
Theorem directory_without_scripts_is_read_every_time context objectType w path w1 :
  dbmsScriptPath the_connection context w = (Return path, w1) →
  bunch_at path w = ∅ →
  (∀ f, f ∈ entryInfoList (fs w) path → is_script_file f = false) →
  ∃ w' es,
    getScript the_connection context objectType w = (Return None, w') ∧
    bunch_at path w' = ∅ ∧
    events w' = events w1 ++ [EvOpen; EvEntryInfoList path] ++ es ∧
    ∃ w'' es',
      getScript the_connection context objectType w' = (Return None, w'') ∧
      bunch_at path w'' = ∅ ∧
      events w'' = events w' ++ [EvOpen; EvOpen; EvEntryInfoList path] ++ es'.
Proof.
  intros Hpath Hempty Hnone.
  assert (Hread : ∀ f, f ∈ entryInfoList (fs w) path →
                        is_script_file f = true → readable f = true).
  { intros f Hf Hs. rewrite (Hnone f Hf) in Hs. done. }
  destruct (getScript_reads_directory _ objectType _ _ _ Hpath Hempty Hread)
    as (w' & es & Hget & Hb & Hev & Hdp).
  rewrite loaded_from_no_script_files in Hb by done.
  rewrite Hb, lookup_empty in Hget.
  exists w', es. split; [done|]. split; [done|]. split; [done|].
  destruct (Quiet_getScript _ _ _ _ _ _ Hget)
    as (_ & Hfs & _ & _ & (_ & Hn & Hvs & _ & _ & _) & _).
  destruct (dbmsScriptPath_caches _ _ _ _ Hpath) as (_ & base & Hbase & Hp).
  assert (Hid : dbmsID (connection w') = dbmsID (connection w1)).
  { destruct (Quiet_dbmsScriptPath _ _ _ _ _ Hpath)
      as (_ & _ & _ & _ & (_ & Hn1 & Hv1 & _ & _ & _) & _).
    unfold dbmsID. by rewrite Hn, Hvs, Hn1, Hv1. }
  assert (Hpath' : dbmsScriptPath the_connection context w' =
                   (Return path, open_connection w')).
  { rewrite Hp. apply dbmsScriptPath_hit. by rewrite Hdp, Hid. }
  assert (Hread' : ∀ f, f ∈ entryInfoList (fs w') path →
                        is_script_file f = true → readable f = true).
  { rewrite Hfs. exact Hread. }
  destruct (getScript_reads_directory _ objectType _ _ _ Hpath' Hb Hread')
    as (w'' & es' & Hget' & Hb' & Hev' & _).
  rewrite Hfs in Hb'. rewrite loaded_from_no_script_files in Hb' by done.
  rewrite Hb', lookup_empty in Hget'.
  exists w'', es'. split; [done|]. split; [done|].
  rewrite Hev'. cbn [open_connection log events set_connection].
  by rewrite <-!app_assoc.
Qed.

Lemma getScript_finds_witness :
  dbmsScriptPath the_connection Tree Demo.world =
    (Return Demo.tree, (dbmsScriptPath the_connection Tree Demo.world).2) ∧
  bunch_at Demo.tree Demo.world = ∅ ∧
  (getScript the_connection Tree "tables" Demo.world).1 = Return (Some Demo.tables_script) ∧
  (getScript the_connection Tree "tables" Demo.world).1 =
  Return (script_of Tree (connection Demo.world) <$>
            script_file_for "tables" (entryInfoList (fs Demo.world) Demo.tree)).
Proof.
  assert (H1 : dbmsScriptPath the_connection Tree Demo.world =
    (Return Demo.tree, (dbmsScriptPath the_connection Tree Demo.world).2))
    by reflexivity.
  assert (H2 : bunch_at Demo.tree Demo.world = ∅) by reflexivity.
  assert (H3 : ∀ f, f ∈ entryInfoList (fs Demo.world) Demo.tree →
        is_script_file f = true → readable f = true).
  { assert (E : entryInfoList (fs Demo.world) Demo.tree =
      [ mkFile "indexes.sql" true "/* V90000+ */ select 1 as html";
        mkFile "tables.sql" true "select * from t where x=$a.b$ and y=$a.b$";
        mkFile "broken.qs" true "returnTable(exec('select 1')); returnScript('x'); fail" ])
      by reflexivity.
    rewrite E. intros f Hf _.
    rewrite !elem_of_cons, elem_of_nil in Hf.
    destruct Hf as [->|[->|[->|[]]]]; reflexivity. }
  split; [exact H1|]. split; [exact H2|]. split; [reflexivity|].
  exact (getScript_finds_the_last_listed_script Tree "tables" Demo.world Demo.tree _ H1 H2 H3).
Defined.

Lemma getScript_serves_witness :
  dbmsScriptPath the_connection Tree Demo.after_lookup =
    (Return Demo.tree, (dbmsScriptPath the_connection Tree Demo.after_lookup).2) ∧
  bunch_at Demo.tree Demo.after_lookup ≠ ∅ ∧
  getScript the_connection Tree "indexes" Demo.after_lookup =
    (Return (bunch_at Demo.tree Demo.after_lookup !! "indexes"),
     touch_bunch Demo.tree (dbmsScriptPath the_connection Tree Demo.after_lookup).2) ∧
  events (touch_bunch Demo.tree (dbmsScriptPath the_connection Tree Demo.after_lookup).2) =
    events (dbmsScriptPath the_connection Tree Demo.after_lookup).2 ∧
  bunch_at Demo.tree
      (touch_bunch Demo.tree (dbmsScriptPath the_connection Tree Demo.after_lookup).2) =
    bunch_at Demo.tree Demo.after_lookup.
Proof.
  assert (H1 : dbmsScriptPath the_connection Tree Demo.after_lookup =
    (Return Demo.tree, (dbmsScriptPath the_connection Tree Demo.after_lookup).2))
    by reflexivity.
  assert (H2 : bunch_at Demo.tree Demo.after_lookup ≠ ∅).
  { intros E. apply (f_equal (λ m : gmap string Script, m !! "tables")) in E.
    vm_compute in E. discriminate E. }
  split; [exact H1|]. split; [exact H2|].
  exact (getScript_serves_a_loaded_bunch Tree "indexes" Demo.after_lookup Demo.tree _ H1 H2).
Defined.

Lemma directory_without_scripts_witness :
  dbmsScriptPath the_connection Preview Demo.after_lookup =
    (Return "/opt/sqt/scripts/postgresql/preview/",
     (dbmsScriptPath the_connection Preview Demo.after_lookup).2) ∧
  bunch_at "/opt/sqt/scripts/postgresql/preview/" Demo.after_lookup = ∅ ∧
  ∃ w' es,
    getScript the_connection Preview "tables" Demo.after_lookup = (Return None, w') ∧
    bunch_at "/opt/sqt/scripts/postgresql/preview/" w' = ∅ ∧
    events w' = events (dbmsScriptPath the_connection Preview Demo.after_lookup).2
                ++ [EvOpen; EvEntryInfoList "/opt/sqt/scripts/postgresql/preview/"] ++ es ∧
    ∃ w'' es',
      getScript the_connection Preview "tables" w' = (Return None, w'') ∧
      bunch_at "/opt/sqt/scripts/postgresql/preview/" w'' = ∅ ∧
      events w'' = events w'
                   ++ [EvOpen; EvOpen; EvEntryInfoList "/opt/sqt/scripts/postgresql/preview/"]
                   ++ es'.
Proof.
  assert (H1 : dbmsScriptPath the_connection Preview Demo.after_lookup =
    (Return "/opt/sqt/scripts/postgresql/preview/",
     (dbmsScriptPath the_connection Preview Demo.after_lookup).2))
    by reflexivity.
  assert (H2 : bunch_at "/opt/sqt/scripts/postgresql/preview/" Demo.after_lookup = ∅)
    by reflexivity.
  assert (H3 : ∀ f, f ∈ entryInfoList (fs Demo.after_lookup)
                          "/opt/sqt/scripts/postgresql/preview/" →
                    is_script_file f = false).
  { intros f Hf. vm_compute in Hf. destruct (not_elem_of_nil _ Hf). }
  split; [exact H1|]. split; [exact H2|].
  exact (directory_without_scripts_is_read_every_time Preview "tables" Demo.after_lookup
           "/opt/sqt/scripts/postgresql/preview/" _ H1 H2 H3).
Defined.

(** ** Further properties of [execute] and of the conductor *)

(** Every live result set goes to exactly one of the three sequences. *)
Lemma classification_partitions (h : gmap TablePtr DataTable) rs :
  (∀ p, p ∈ rs → is_Some (h !! p)) →
  (length (List.filter (is_table h) rs) + length (omap (script_text h) rs)
   + length (omap (html_text h) rs))%nat = length rs.
Proof.
  induction rs as [|p rs IH]; intros Hlive; [done|].
  destruct (Hlive p) as [t Ht]; [by left|].
  assert (Hrest : ∀ q, q ∈ rs → is_Some (h !! q)) by (intros q Hq; apply Hlive; by right).
  specialize (IH Hrest).
  cbn [List.filter omap list_omap length].
  change (list_omap _ _ ?f rs) with (omap f rs).
  unfold is_table at 1, script_text at 1, html_text at 1. rewrite Ht.
  cbn [fmap option_fmap option_map]. destruct (classify t); cbn [length]; lia.
Qed.

Lemma NoDup_List_filter {A} (f : A → bool) (l : list A) : NoDup l → NoDup (List.filter f l).
Proof.
  induction 1 as [|x l Hx Hnd IH]; cbn [List.filter]; [constructor|].
  destruct (f x); [|done]. constructor; [|done].
  rewrite elem_of_List_filter. tauto.
Qed.

Lemma NoDup_rev_2 {A} (l : list A) : NoDup l → NoDup (rev l).
Proof.
  induction 1 as [|x l Hx Hnd IH]; cbn [rev]; [constructor|].
  apply NoDup_app. split; [done|]. split; [|apply NoDup_singleton].
  intros y Hy Hxy. apply list_elem_of_singleton in Hxy as ->. by rewrite elem_of_rev in Hy.
Qed.

(** X10.  After a successful SQL script the tables of the conductor are
    pairwise different, each is a live object with the content the
    connection produced, every result set of the connection went to
    exactly one of the three sequences of the conductor, and no object
    outside the result sets was touched. *)
Theorem sql_conductor_owns_what_it_keeps context objectType envCallback w s w1 :
  getScript the_connection context objectType w = (Return (Some s), w1) →
  type s = SQL →
  resultsets_owned w →
  let w3 := db_execute (expand_macros (body s) envCallback w1).1
                       (expand_macros (body s) envCallback w1).2 in
  ∃ env w4,
    execute the_connection context objectType envCallback w = (Return (Some env), w4) ∧
    NoDup (resultsets env) ∧
    (∀ p, p ∈ resultsets env → heap w4 !! p = heap w3 !! p ∧ is_Some (heap w4 !! p)) ∧
    (length (resultsets env) + length (scripts env) + length (html env))%nat =
      length (_resultsets (connection w3)) ∧
    (∀ q, q ∉ _resultsets (connection w3) → heap w4 !! q = heap w3 !! q).
Proof.
  intros Hget Hty Hown w3.
  destruct (execute_sql context objectType envCallback w s w1 Hget Hty Hown)
    as (w4 & Hrun & _ & Hheap & Hnd & Hlive).
  fold w3 in Hrun, Hheap, Hnd, Hlive.
  eexists _, w4. split; [exact Hrun|]. cbn [resultsets scripts html].
  split; [by apply NoDup_rev_2, NoDup_List_filter|]. split; [|split].
  - intros p [Hp Ht]%elem_of_rev%elem_of_List_filter.
    rewrite Hheap, Ht, andb_false_r. split; [done|by apply Hlive].
  - rewrite !length_rev. by apply classification_partitions.
  - intros q Hq. by rewrite Hheap, bool_decide_eq_false_2.
Qed.

Lemma sql_conductor_owns_witness :
  getScript the_connection Tree "tables" Demo.world =
    (Return (Some Demo.tables_script), Demo.after_lookup) ∧
  type Demo.tables_script = SQL ∧
  resultsets_owned Demo.world ∧
  (let w3 := db_execute
               (expand_macros (body Demo.tables_script) Demo.resolver Demo.after_lookup).1
               (expand_macros (body Demo.tables_script) Demo.resolver Demo.after_lookup).2 in
   ∃ env w4,
     execute the_connection Tree "tables" Demo.resolver Demo.world =
       (Return (Some env), w4) ∧
     NoDup (resultsets env) ∧
     (∀ p, p ∈ resultsets env → heap w4 !! p = heap w3 !! p ∧ is_Some (heap w4 !! p)) ∧
     (length (resultsets env) + length (scripts env) + length (html env))%nat =
       length (_resultsets (connection w3)) ∧
     (∀ q, q ∉ _resultsets (connection w3) → heap w4 !! q = heap w3 !! q)).
Proof.
  assert (H1 : getScript the_connection Tree "tables" Demo.world =
    (Return (Some Demo.tables_script), Demo.after_lookup))
    by (rewrite (after_lookup_eq "tables"); apply pair_of_fst; reflexivity).
  assert (H2 : type Demo.tables_script = SQL) by reflexivity.
  assert (H3 : resultsets_owned Demo.world).
  { split; [constructor|]. intros p Hp. destruct (not_elem_of_nil _ Hp). }
  split; [exact H1|]. split; [exact H2|]. split; [exact H3|].
  exact (sql_conductor_owns_what_it_keeps Tree "tables" Demo.resolver
           Demo.world Demo.tables_script Demo.after_lookup H1 H2 H3).
Defined.

(** X11.  A SQL script whose query yields no result set, on a connection
    holding none, returns an empty conductor (not the null pointer); the
    heap is unchanged and the query was run once. *)
Theorem sql_script_without_results_gives_an_empty_conductor
    context objectType envCallback w s w1 :
  getScript the_connection context objectType w = (Return (Some s), w1) →
  type s = SQL →
  _resultsets (connection w) = [] →
  respond (connection w) (expand_macros (body s) envCallback w1).1 = [] →
  ∃ w4,
    execute the_connection context objectType envCallback w =
      (Return (Some new_conductor), w4) ∧
    heap w4 = heap w ∧
    events w4 = events (expand_macros (body s) envCallback w1).2
                ++ [EvExecute (expand_macros (body s) envCallback w1).1].
Proof.
  intros Hget Hty Hrs Hre.
  destruct (Quiet_getScript _ _ _ _ _ _ Hget)
    as (Hh1 & _ & _ & _ & (_ & _ & _ & _ & Hrs1 & Hre1) & _).
  unfold execute. rewrite Hget.
  destruct (expand_macros (body s) envCallback w1) as [query w2] eqn:Hex.
  cbn [fst snd] in *. rewrite Hty. cbn zeta.
  assert (Hw2 : w2 = (expand_macros (body s) envCallback w1).2) by (by rewrite Hex).
  assert (Hc2 : connection w2 = connection w1 ∧ heap w2 = heap w1).
  { rewrite Hw2. unfold expand_macros. rewrite replace_macros_world.
    destruct (log_callbacks_tables (collect_macros (body s)) w1) as [-> ->]. done. }
  destruct Hc2 as [Hc2 Hh2].
  assert (Hdb : db_execute query w2 = log (EvExecute query) w2).
  { unfold db_execute. by rewrite Hc2, Hre1, Hre. }
  rewrite Hdb. cbn [log connection]. rewrite Hc2, Hrs1, Hrs.
  cbn [length classify_resultsets]. eexists. split; [done|].
  cbn [log heap events]. by rewrite Hh2, Hh1.
Qed.

Lemma sql_script_without_results_witness :
  getScript the_connection Tree "tables" Demo2.silent_world =
    (Return (Some Demo.tables_script),
     (getScript the_connection Tree "tables" Demo2.silent_world).2) ∧
  type Demo.tables_script = SQL ∧
  _resultsets (connection Demo2.silent_world) = [] ∧
  ∃ w4,
    execute the_connection Tree "tables" Demo.resolver Demo2.silent_world =
      (Return (Some new_conductor), w4) ∧
    heap w4 = heap Demo2.silent_world.
Proof.
  assert (H1 : getScript the_connection Tree "tables" Demo2.silent_world =
    (Return (Some Demo.tables_script),
     (getScript the_connection Tree "tables" Demo2.silent_world).2))
    by (apply pair_of_fst; reflexivity).
  assert (H2 : type Demo.tables_script = SQL) by reflexivity.
  assert (H3 : _resultsets (connection Demo2.silent_world) = []) by reflexivity.
  assert (H4 : respond (connection Demo2.silent_world)
                 (expand_macros (body Demo.tables_script) Demo.resolver
                    (getScript the_connection Tree "tables" Demo2.silent_world).2).1 = [])
    by reflexivity.
  split; [exact H1|]. split; [exact H2|]. split; [exact H3|].
  destruct (sql_script_without_results_gives_an_empty_conductor Tree "tables"
              Demo.resolver Demo2.silent_world Demo.tables_script _ H1 H2 H3 H4)
    as (w4 & Hrun & Hheap & _).
  exists w4. split; [exact Hrun|exact Hheap].
Defined.

(** The objects a script obtains from the connection are new ones: those
    already on the heap stay as they are. *)
Lemma js_execute_keeps query w q :
  is_Some (heap w !! q) →
  heap (js_execute query w) !! q = heap w !! q ∧ is_Some (heap (js_execute query w) !! q).
Proof.
  unfold js_execute. change (heap w) with (heap (log (EvExecute query) w)).
  generalize (log (EvExecute query) w) as w0.
  generalize (respond (connection w) query) as ts. clear w.
  induction ts as [|t ts IH]; intros w0 Hq; [done|].
  cbn [fold_left]. unfold new_table at 2 4. cbn [snd].
  set (p := fresh (dom (heap w0))).
  assert (Hp : heap w0 !! p = None) by (apply not_elem_of_dom, is_fresh).
  assert (Hne : p ≠ q) by (intros <-; rewrite Hp in Hq; by destruct Hq).
  destruct (IH (set_heap (insert p t) w0)) as [E1 E2].
  { cbn [set_heap heap]. by rewrite lookup_insert_ne. }
  cbn [set_heap heap] in E1. rewrite lookup_insert_ne in E1 by done. done.
Qed.

Lemma run_calls_keeps calls :
  ∀ env w q, is_Some (heap w !! q) → heap (run_calls calls env w).2 !! q = heap w !! q.
Proof.
  induction calls as [|c calls IH]; intros env w q Hq; [done|].
  destruct c as [o|sql|t|s0]; cbn [run_calls].
  - by rewrite IH.
  - destruct (js_execute_keeps sql w q Hq) as [E1 E2]. by rewrite IH.
  - by apply IH.
  - by apply IH.
Qed.

(** X12.  An embedded script that runs to its end returns a conductor whose
    tables and sub-scripts are those handed to [returnTable] and
    [returnScript], in the order of the calls (not reversed, unlike the
    SQL branch); the objects that existed before the call are unchanged. *)
Theorem embedded_script_output_is_in_call_order
    context objectType envCallback w s w1 calls :
  getScript the_connection context objectType w = (Return (Some s), w1) →
  type s = QS →
  sandbox w (expand_macros (body s) envCallback w1).1 = (calls, JsDone) →
  ∃ env w4,
    execute the_connection context objectType envCallback w = (Return (Some env), w4) ∧
    resultsets env = returned_tables calls ∧
    scripts env = returned_scripts calls ∧
    (∀ q, is_Some (heap w !! q) → heap w4 !! q = heap w !! q).
Proof.
  intros Hget Hty Hjs.
  destruct (Quiet_getScript _ _ _ _ _ _ Hget) as (Hh1 & _ & Hsb & _).
  unfold execute. rewrite Hget.
  unfold expand_macros in *.
  pose proof (replace_macros_sandbox (collect_macros (body s)) envCallback (body s) w1) as Hsb2.
  pose proof (replace_macros_world (collect_macros (body s)) envCallback (body s) w1) as Hw2.
  destruct (replace_macros (collect_macros (body s)) envCallback (body s) w1)
    as [query w2] eqn:Hex.
  cbn [fst snd] in *. rewrite Hty. cbn zeta.
  change (sandbox (log (EvEvaluate query) w2)) with (sandbox w2).
  rewrite Hsb2, Hsb, Hjs.
  pose proof (run_calls_conductor calls new_conductor (log (EvEvaluate query) w2))
    as (Hr & Hs & _).
  pose proof (run_calls_keeps calls new_conductor (log (EvEvaluate query) w2)) as Hk.
  destruct (run_calls calls new_conductor (log (EvEvaluate query) w2)) as [env' w3].
  cbn [fst snd] in *. eexists _, _. split; [done|]. split; [done|]. split; [done|].
  intros q Hq.
  assert (Hh2 : heap w2 = heap w).
  { rewrite Hw2. destruct (log_callbacks_tables (collect_macros (body s)) w1) as [-> _].
    done. }
  rewrite Hk; cbn [log heap]; by rewrite Hh2.
Qed.

Lemma embedded_script_output_witness :
  getScript the_connection Tree "broken" Demo2.working_world =
    (Return (Some Demo.broken_script),
     (getScript the_connection Tree "broken" Demo2.working_world).2) ∧
  type Demo.broken_script = QS ∧
  (execute the_connection Tree "broken" Demo.resolver Demo2.working_world).1 =
    Return (Some (mkConductor [1%positive] ["first"; "second"] [])) ∧
  ∃ env w4,
    execute the_connection Tree "broken" Demo.resolver Demo2.working_world =
      (Return (Some env), w4) ∧
    resultsets env =
      returned_tables [JsExec "select 1"; JsReturnTable 1%positive; JsReturnScript "first";
                       JsEnv "schema"; JsReturnScript "second"] ∧
    scripts env =
      returned_scripts [JsExec "select 1"; JsReturnTable 1%positive; JsReturnScript "first";
                        JsEnv "schema"; JsReturnScript "second"] ∧
    (∀ q, is_Some (heap Demo2.working_world !! q) →
          heap w4 !! q = heap Demo2.working_world !! q).
Proof.
  assert (H1 : getScript the_connection Tree "broken" Demo2.working_world =
    (Return (Some Demo.broken_script),
     (getScript the_connection Tree "broken" Demo2.working_world).2))
    by (apply pair_of_fst; reflexivity).
  assert (H2 : type Demo.broken_script = QS) by reflexivity.
  assert (H3 : sandbox Demo2.working_world
      (expand_macros (body Demo.broken_script) Demo.resolver
         (getScript the_connection Tree "broken" Demo2.working_world).2).1 =
    ([JsExec "select 1"; JsReturnTable 1%positive; JsReturnScript "first";
      JsEnv "schema"; JsReturnScript "second"], JsDone)) by reflexivity.
  split; [exact H1|]. split; [exact H2|]. split; [reflexivity|].
  exact (embedded_script_output_is_in_call_order Tree "broken" Demo.resolver
           Demo2.working_world Demo.broken_script _ _ H1 H2 H3).
Defined.


(** X14.  The macro pass of [execute] leaves a text with no dollar sign as
    it is and does not call the environment callback. *)
Theorem text_without_dollar_is_left_alone query envCallback w :
  no_dollar query = true →
  expand_macros query envCallback w = (query, w).
Proof.
  intros H. unfold expand_macros, collect_macros.
  rewrite <-(append_nil_r query) at 1. by rewrite macro_captures_plain.
Qed.

Lemma text_without_dollar_witness :
  no_dollar "select 1 from t.u" = true ∧
  expand_macros "select 1 from t.u" Demo.resolver Demo.world =
    ("select 1 from t.u", Demo.world).
Proof.
  assert (H : no_dollar "select 1 from t.u" = true) by reflexivity.
  split; [exact H|].
  exact (text_without_dollar_is_left_alone "select 1 from t.u" Demo.resolver Demo.world H).
Defined.

(** X15.  However they end, [getScript] and [refresh] run nothing: the
    heap and the result sets of the connection are unchanged, and no
    query execution, script evaluation or environment callback is among
    the events they add. *)
Theorem lookups_run_nothing con context objectType w :
  (heap (getScript con context objectType w).2 = heap w ∧
   _resultsets (connection (getScript con context objectType w).2) =
     _resultsets (connection w) ∧
   ∃ es, events (getScript con context objectType w).2 = events w ++ es ∧
         ∀ e, e ∈ es →
              (∀ query, e ≠ EvExecute query) ∧ (∀ program, e ≠ EvEvaluate program) ∧
              (∀ name, e ≠ EvCallback name))
  ∧
  (heap (refresh con context w).2 = heap w ∧
   _resultsets (connection (refresh con context w).2) = _resultsets (connection w) ∧
   ∃ es, events (refresh con context w).2 = events w ++ es ∧
         ∀ e, e ∈ es →
              (∀ query, e ≠ EvExecute query) ∧ (∀ program, e ≠ EvEvaluate program) ∧
              (∀ name, e ≠ EvCallback name)).
Proof.
  assert (H : ∀ v v', lookup_only v v' →
    heap v' = heap v ∧ _resultsets (connection v') = _resultsets (connection v) ∧
    ∃ es, events v' = events v ++ es ∧
          ∀ e, e ∈ es →
               (∀ query, e ≠ EvExecute query) ∧ (∀ program, e ≠ EvEvaluate program) ∧
               (∀ name, e ≠ EvCallback name)).
  { intros v v' (Hh & _ & _ & _ & (_ & _ & _ & _ & Hrs & _) & es & He & Hq).
    split; [done|]. split; [done|]. exists es. split; [done|].
    intros e He'. rewrite forallb_forall in Hq.
    apply list_elem_of_In in He'. specialize (Hq _ He'). by destruct e. }
  split; apply H.
  - destruct (getScript con context objectType w) as [r w'] eqn:E.
    by eapply Quiet_getScript.
  - destruct (refresh con context w) as [r w'] eqn:E.
    by eapply Quiet_refresh.
Qed.

(** ** The message of a failed [refresh] *)

(** The loop of [refresh] at an unreadable script file: the file it tried
    to open is the last event, the message is made of the head of the
    whole listing. *)
Lemma load_files_unreadable_message files path context before f after :
  ∀ w,
    (∀ g, g ∈ before → is_script_file g = true → readable g = true) →
    is_script_file f = true → readable f = false →
    ∃ w' es,
      load_files files path context (before ++ f :: after) w =
        (Throw ("can't open " +:+
                match files with f0 :: _ => filePath path f0 | [] => "" end), w') ∧
      events w' = events w ++ es ++ [EvFileOpen (filePath path f)].
Proof.
  induction before as [|g rest IH]; intros w Hread Hf Hr.
  - cbn [app]. rewrite load_files_cons, Hf, Hr. by eexists _, [].
  - cbn [app]. rewrite load_files_cons.
    assert (Hrest : ∀ x, x ∈ rest → is_script_file x = true → readable x = true).
    { intros x Hx. apply Hread. by right. }
    destruct (is_script_file g) eqn:Hg.
    + rewrite (Hread g) by (done || by left).
      destruct (IH (set_scripts
                 (insert path (load_one context (connection w) (bunch_at path w) g))
                 (log (EvFileOpen (filePath path g)) w)) Hrest Hf Hr) as (w' & es & Hrun & He).
      exists w', (EvFileOpen (filePath path g) :: es). split; [done|].
      rewrite He. cbn [set_scripts log events]. by rewrite <-app_assoc.
    + by apply IH.
Qed.

(** X16.  When [refresh] meets a script file that cannot be opened, the
    message it throws names the first file of the directory listing
    ([files.at(0)]), whichever file it was that could not be opened; the
    file it tried to open is the last thing it touched. *)
Theorem failed_refresh_names_the_first_listed_file context w path w1 before f after :
  dbmsScriptPath the_connection context w = (Return path, w1) →
  entryInfoList (fs w) path = before ++ f :: after →
  (∀ g, g ∈ before → is_script_file g = true → readable g = true) →
  is_script_file f = true →
  readable f = false →
  ∃ first w' es,
    head (entryInfoList (fs w) path) = Some first ∧
    refresh the_connection context w =
      (Throw ("can't open " +:+ filePath path first), w') ∧
    events w' = events w1 ++ es ++ [EvFileOpen (filePath path f)].
Proof.
  intros Hpath Hfiles Hread Hf Hr.
  destruct (Quiet_dbmsScriptPath _ _ _ _ _ Hpath)
    as (_ & Hfs & _ & _ & (_ & _ & _ & Hv & _ & _) & _).
  rewrite (refresh_resolved _ _ _ _ Hpath), Hfs, Hfiles.
  destruct (load_files_unreadable_message (before ++ f :: after) path context before f after
              (log (EvEntryInfoList path) (set_scripts (insert path ∅) (touch_bunch path w1)))
              Hread Hf Hr) as (w' & es & Hrun & He).
  exists (hd f before), w', (EvEntryInfoList path :: es).
  split; [by destruct before|]. split.
  - rewrite Hrun. by destruct before.
  - rewrite He. cbn [log events set_scripts]. unfold touch_bunch.
    cbn [set_scripts events]. by rewrite <-app_assoc.
Qed.

Lemma failed_refresh_names_witness :
  dbmsScriptPath the_connection Content Demo.world =
    (Return Demo.content_dir, (dbmsScriptPath the_connection Content Demo.world).2) ∧
  (refresh the_connection Content Demo.world).1 =
    Throw "can't open /opt/sqt/scripts/postgresql/content/columns.sql" ∧
  ∃ first w' es,
    head (entryInfoList (fs Demo.world) Demo.content_dir) = Some first ∧
    refresh the_connection Content Demo.world =
      (Throw ("can't open " +:+ filePath Demo.content_dir first), w') ∧
    events w' = events (dbmsScriptPath the_connection Content Demo.world).2 ++ es
                ++ [EvFileOpen (filePath Demo.content_dir (mkFile "locked.sql" false ""))].
Proof.
  assert (H1 : dbmsScriptPath the_connection Content Demo.world =
    (Return Demo.content_dir, (dbmsScriptPath the_connection Content Demo.world).2))
    by reflexivity.
  assert (H2 : entryInfoList (fs Demo.world) Demo.content_dir =
    [mkFile "columns.sql" true "select 1"] ++ mkFile "locked.sql" false "" ::
    [mkFile "rows.sql" true "select 2"]) by reflexivity.
  assert (H3 : ∀ g, g ∈ [mkFile "columns.sql" true "select 1"] →
        is_script_file g = true → readable g = true).
  { intros g Hg _. apply list_elem_of_singleton in Hg. by rewrite Hg. }
  assert (H4 : is_script_file (mkFile "locked.sql" false "") = true) by reflexivity.
  assert (H5 : readable (mkFile "locked.sql" false "") = false) by reflexivity.
  split; [exact H1|]. split; [reflexivity|].
  exact (failed_refresh_names_the_first_listed_file Content Demo.world Demo.content_dir _
           _ _ _ H1 H2 H3 H4 H5).
Defined.
